(** * Duffle invocation layer: binary resolution, command rendering, parsing

  A shallow embedding of [src/app/utils/duffle.ts].  The module drives the
  external [duffle] executable through a [Shell] collaborator: it locates
  the binary (system [PATH] first, then a copy bundled with the
  application), keeps the result in a module-level cache, renders argument
  strings and parses line-oriented output.

  Strings are sequences of code units; the model covers code units below
  256, which is what [String.string] holds.  Asynchronous calls are
  sequential ([await] at every call), so a computation is a function from
  the state before to a result and the state after. *)

From Stdlib Require Import String Ascii List ZArith Bool Lia.
Import ListNotations.
Local Open Scope list_scope.
Local Open Scope string_scope.

(** ** JavaScript string primitives used by the module *)

Module JsString.

(** Code units that [String.prototype.trim] removes, in the Latin-1 range:
    TAB, LF, VT, FF, CR, SPACE and NBSP. *)
Definition is_white_space (c : ascii) : bool :=
  match nat_of_ascii c with
  | 9 | 10 | 11 | 12 | 13 | 32 | 160 => true
  | _ => false
  end.

Definition is_empty (s : string) : bool :=
  match s with
  | EmptyString => true
  | String _ _ => false
  end.

(** Truthiness of a string: [!!s] is [false] exactly for the empty one. *)
Definition truthy (s : string) : bool := negb (is_empty s).

(** Truthiness of a [string | undefined]. *)
Definition truthy_opt (o : option string) : bool :=
  match o with
  | None => false
  | Some s => truthy s
  end.

Fixpoint trimStart (s : string) : string :=
  match s with
  | EmptyString => EmptyString
  | String c rest => if is_white_space c then trimStart rest else s
  end.

Fixpoint trimEnd (s : string) : string :=
  match s with
  | EmptyString => EmptyString
  | String c rest =>
      let r := trimEnd rest in
      if is_white_space c && is_empty r then EmptyString else String c r
  end.

Definition trim (s : string) : string := trimEnd (trimStart s).

(** [s.split(sep)] for a one-character separator: always at least one
    piece, a trailing separator gives a trailing empty piece. *)
Fixpoint split (sep : ascii) (s : string) : list string :=
  match s with
  | EmptyString => [EmptyString]
  | String c rest =>
      if Ascii.eqb c sep then EmptyString :: split sep rest
      else match split sep rest with
           | piece :: pieces => String c piece :: pieces
           | [] => [String c EmptyString]
           end
  end.

(** [xs.join(sep)]. *)
Fixpoint join (sep : string) (xs : list string) : string :=
  match xs with
  | [] => EmptyString
  | [x] => x
  | x :: rest => x ++ sep ++ join sep rest
  end.

Definition LF : ascii := ascii_of_nat 10.

End JsString.

(** ** Collaborators: [errorable], [shell], [pairs], the host process *)

(** [Errorable<T>]: success with a payload, or failure with messages. *)
Inductive Errorable (T : Type) : Type :=
  | Succeeded (result : T)
  | Failed (error : list string).

Arguments Succeeded {T} result.
Arguments Failed {T} error.

Definition succeeded {T : Type} (e : Errorable T) : bool :=
  match e with
  | Succeeded _ => true
  | Failed _ => false
  end.

Module shell.

(** Modelled from the spec: the [Platform] enumeration of the shell
    module is not among the sources.  The resolver names three members;
    [Unsupported] stands for every other platform value. *)
Inductive Platform : Type := Windows | Linux | MacOS | Unsupported.

(** What a finished process reports: the resolver reads [code] and
    [stdout] of it. *)
Record ShellResult : Type := mkShellResult {
  code : Z;
  stdout : string;
  stderr : string
}.

(** Execution options are opaque to this layer (environment overrides). *)
Definition ExecOpts : Type := list (string * string).

(** One use of the process-execution collaborator. *)
Inductive Call : Type :=
| Exec (cmd : string)
| ExecObj (cmd : string) (desc : string).

(** The collaborator.  What a process answers may depend on everything
    that was run before it, so [run] receives the calls made so far; a
    process that could not be started is a failure.  [errorDetail] is the
    detail reported for a command, under its description, that exited with
    a non-zero status. *)
Record Shell : Type := mkShell {
  run : list Call -> string -> Errorable ShellResult;
  errorDetail : string -> ShellResult -> list string;
  platform : Platform;
  home : string
}.

(** Characters that no POSIX shell acts upon, wherever they stand in a
    word: letters, digits and a few punctuation marks. *)
Definition is_plain_char (c : ascii) : bool :=
  let n := nat_of_ascii c in
  (Nat.leb 48 n && Nat.leb n 57)                     (* 0-9 *)
  || (Nat.leb 65 n && Nat.leb n 90)                (* A-Z *)
  || (Nat.leb 97 n && Nat.leb n 122)                (* a-z *)
  || match n with
     | 37 | 43 | 44 | 45 | 46 | 47 | 58 | 61 | 64 | 95 => true
                                (* % + , - . / : = @ _ *)
     | _ => false
     end.

Fixpoint all_plain (s : string) : bool :=
  match s with
  | EmptyString => true
  | String c rest => is_plain_char c && all_plain rest
  end.

Definition SQ : ascii := ascii_of_nat 39.
Definition DQ : ascii := ascii_of_nat 34.
Definition BS : ascii := ascii_of_nat 92.

Fixpoint escape_single_quotes (s : string) : string :=
  match s with
  | EmptyString => EmptyString
  | String c rest =>
      if Ascii.eqb c SQ
      then String SQ (String BS (String SQ (String SQ (escape_single_quotes rest))))
      else String c (escape_single_quotes rest)
  end.

(** Modelled from the spec: [safeValue] of the shell module is not among
    the sources.  The spec asks that the rendered value be quoted per the
    target shell's rules so that it is read back as one argument, and its
    example renders the value [1] bare.  A non-empty value made only of
    plain characters is left as it is; any other value is put in single
    quotes, each single quote inside it written as the four characters
    quote, backslash, quote, quote. *)
Definition safeValue (s : string) : string :=
  if JsString.truthy s && all_plain s then s
  else String SQ (escape_single_quotes s ++ String SQ EmptyString).

End shell.

Module pairs.

Record Pair : Type := mkPair { key : string; value : string }.

(** A [{ [key: string]: string }] object: its own properties in the order
    in which the object enumerates them. *)
Definition StringMap : Type := list (string * string).

(** Modelled from the spec: [fromStringMap] of the pairs module is not
    among the sources.  It lists the entries of the mapping as key/value
    pairs in the mapping's iteration order. *)
Definition fromStringMap (m : StringMap) : list Pair :=
  map (fun kv => mkPair (fst kv) (snd kv)) m.

End pairs.

(** The host process: [process.resourcesPath], [process.env['DUFFLE_HOME']]
    and [path.join]. *)
Record Host : Type := mkHost {
  resourcesPath : option string;
  env_DUFFLE_HOME : option string;
  path_join : string -> string -> string
}.

(** ** The module state and the computations over it *)

Record BinaryInfo : Type := mkBinaryInfo {
  path : string;
  version : string
}.

(** [duffle] is the module-level cache ([let duffle: BinaryInfo | undefined]);
    [calls] lists the uses of the process collaborator, oldest first;
    [console] collects what [console.log] printed. *)
Record State : Type := mkState {
  duffle : option BinaryInfo;
  calls : list shell.Call;
  console : list string
}.

Definition initial : State := mkState None [] [].

Definition M (A : Type) : Type := State -> A * State.

Definition ret {A : Type} (a : A) : M A := fun st => (a, st).

Definition bind {A B : Type} (m : M A) (k : A -> M B) : M B :=
  fun st => let (a, st') := m st in k a st'.

Notation "x <- m ;; k" := (bind m (fun x => k))
  (at level 61, m at next level, right associativity).
Notation "m ;;; k" := (bind m (fun _ => k))
  (at level 61, right associativity).

Definition console_log (line : string) : M unit :=
  fun st => (tt, mkState (duffle st) (calls st) ((console st ++ [line])%list)).

Definition get_duffle : M (option BinaryInfo) :=
  fun st => (duffle st, st).

Definition set_duffle (b : option BinaryInfo) : M unit :=
  fun st => (tt, mkState b (calls st) (console st)).

(** Running a process: the collaborator answers from the calls made so far,
    and the call is recorded. *)
Definition spawn (sh : shell.Shell) (c : shell.Call) (cmd : string)
  : M (Errorable shell.ShellResult) :=
  fun st => (shell.run sh (calls st) cmd,
             mkState (duffle st) ((calls st ++ [c])%list) (console st)).

(** [sh.exec(cmd)]. *)
Definition sh_exec (sh : shell.Shell) (cmd : string)
  : M (Errorable shell.ShellResult) :=
  spawn sh (shell.Exec cmd) cmd.

(** Modelled from the spec: [sh.execObj] of the shell module is not among
    the sources.  It executes the command line through the process
    collaborator; on successful completion (exit code 0) it applies the
    parser to stdout and wraps the value as success; a non-zero exit or a
    process that could not be started is a failure carrying the
    collaborator's detail. *)
Definition sh_execObj {T : Type} (sh : shell.Shell) (cmd desc : string)
    (opts : shell.ExecOpts) (fn : string -> M T) : M (Errorable T) :=
  sr <- spawn sh (shell.ExecObj cmd desc) cmd ;;
  match sr with
  | Succeeded r =>
      if Z.eqb (shell.code r) 0
      then v <- fn (shell.stdout r) ;; ret (Succeeded v)
      else ret (Failed (shell.errorDetail sh desc r))
  | Failed e => ret (Failed e)
  end.

(** ** [duffle.ts] *)

Definition cannot_find_duffle : string :=
  "Can't find Duffle on this machine. Install it on your system PATH and restart the installer.".

Definition duffleResourcePath (platform : shell.Platform) : option string :=
  match platform with
  | shell.Windows => Some "dufflebin/win32/duffle.exe"
  | shell.Linux => Some "dufflebin/linux/duffle"
  | shell.MacOS => Some "dufflebin/darwin/duffle"
  | _ => None
  end.

(** [succeeded(sr) && sr.result.code === 0] *)
Definition exited_zero (sr : Errorable shell.ShellResult) : bool :=
  succeeded sr
  && match sr with
     | Succeeded r => Z.eqb (shell.code r) 0
     | Failed _ => false
     end.

Definition result_stdout (sr : Errorable shell.ShellResult) : string :=
  match sr with
  | Succeeded r => shell.stdout r
  | Failed _ => EmptyString
  end.

Definition findDuffleBinaryCore (sh : shell.Shell) (host : Host)
  : M (option BinaryInfo) :=
  (* Use the user's installed duffle if they have one *)
  sr <- sh_exec sh "duffle version" ;;
  if exited_zero sr
  then ret (Some (mkBinaryInfo "duffle" (JsString.trim (result_stdout sr))))
  else
    (* Look for an embedded duffle binary *)
    let resourcePath := duffleResourcePath (shell.platform sh) in
    match resourcePath with
    | None => ret None
    | Some rp =>
        if negb (JsString.truthy rp) then ret None
        else
          match resourcesPath host with
          | None => ret None
          | Some root =>
              if negb (JsString.truthy root) then ret None
              else
                let binPath := path_join host root rp in
                srr <- sh_exec sh (binPath ++ " version") ;;
                if exited_zero srr
                then ret (Some (mkBinaryInfo binPath
                                  (JsString.trim (result_stdout srr))))
                else (* Give up *) ret None
          end
    end.

Definition findDuffleBinary (sh : shell.Shell) (host : Host)
  : M (option BinaryInfo) :=
  cached <- get_duffle ;;
  match cached with
  | Some _ => get_duffle
  | None =>
      found <- findDuffleBinaryCore sh host ;;
      set_duffle found ;;;
      get_duffle
  end.

Definition andLog {T : Type} (fn : string -> T) : string -> M T :=
  fun s => console_log s ;;; ret (fn s).

Definition invokeObj {T : Type} (sh : shell.Shell) (host : Host)
    (command args : string) (opts : shell.ExecOpts) (fn : string -> T)
  : M (Errorable T) :=
  bin <- findDuffleBinary sh host ;;
  match bin with
  | None => ret (Failed [cannot_find_duffle])
  | Some b =>
      let cmd := path b ++ " " ++ command ++ " " ++ args in
      console_log ("$ " ++ cmd) ;;;
      sh_execObj sh cmd ("duffle " ++ command) opts (andLog fn)
  end.

Definition home (sh : shell.Shell) (host : Host) : string :=
  match env_DUFFLE_HOME host with
  | Some h => if JsString.truthy h then h
              else path_join host (shell.home sh) ".duffle"
  | None => path_join host (shell.home sh) ".duffle"
  end.

(** The parser local to [list]. *)
Definition list_parse (stdout : string) : list string :=
  filter (fun l => Nat.ltb 0 (String.length l))
         (map (fun l => JsString.trim l) (JsString.split JsString.LF stdout)).

(** [list]; the name is taken by the type of lists. *)
Definition list_ (sh : shell.Shell) (host : Host) : M (Errorable (list string)) :=
  invokeObj sh host "list" EmptyString [] list_parse.

Definition listRepos (sh : shell.Shell) : M (Errorable (list string)) :=
  ret (Succeeded ["hub.cnlabs.io"]).

(** The parser local to [listCredentialSets]. *)
Definition listCredentialSets_parse (stdout : string) : list string :=
  filter (fun l => Nat.ltb 0 (String.length l))
         (map (fun l => JsString.trim l) (JsString.split JsString.LF stdout)).

Definition listCredentialSets (sh : shell.Shell) (host : Host)
  : M (Errorable (list string)) :=
  invokeObj sh host "credentials list" EmptyString [] listCredentialSets_parse.

Definition upgrade (sh : shell.Shell) (host : Host) (bundleName : string)
  : M (Errorable unit) :=
  invokeObj sh host "upgrade" bundleName [] (fun _ => tt).

Definition uninstall (sh : shell.Shell) (host : Host) (bundleName : string)
  : M (Errorable unit) :=
  invokeObj sh host "uninstall" bundleName [] (fun _ => tt).

Definition quoted (s : string) : string :=
  String shell.DQ (s ++ String shell.DQ EmptyString).

Definition pushFile (sh : shell.Shell) (host : Host) (filePath repo : string)
  : M (Errorable unit) :=
  invokeObj sh host "push" ("-f " ++ quoted filePath ++ " --repo " ++ repo) []
            (fun _ => tt).

Definition paramsArgs (parameters : pairs.StringMap) : string :=
  JsString.join " "
    (map (fun p => "--set " ++ pairs.key p ++ "=" ++ shell.safeValue (pairs.value p))
       (filter (fun p => JsString.truthy (pairs.value p))
          (pairs.fromStringMap parameters))).

Definition credentialArg (credentialSet : option string) : string :=
  match credentialSet with
  | Some c => if JsString.truthy c then "-c " ++ c else EmptyString
  | None => EmptyString
  end.

Definition installFile_args (bundleFilePath name : string)
    (params : pairs.StringMap) (credentialSet : option string) : string :=
  name ++ " -f " ++ quoted bundleFilePath ++ " " ++ paramsArgs params
       ++ " " ++ credentialArg credentialSet.

Definition installFile (sh : shell.Shell) (host : Host)
    (bundleFilePath name : string) (params : pairs.StringMap)
    (credentialSet : option string) : M (Errorable unit) :=
  invokeObj sh host "install"
            (installFile_args bundleFilePath name params credentialSet) []
            (fun _ => tt).

(** The argument string that [installBundle] hands to [invokeObj]. *)
Definition installBundle_args (bundleName name : string)
    (params : pairs.StringMap) (credentialSet : option string) : string :=
  name ++ " " ++ bundleName ++ " " ++ paramsArgs params
       ++ " " ++ credentialArg credentialSet.

Definition installBundle (sh : shell.Shell) (host : Host)
    (bundleName name : string) (params : pairs.StringMap)
    (credentialSet : option string) : M (Errorable unit) :=
  invokeObj sh host "install"
            (installBundle_args bundleName name params credentialSet) []
            (fun _ => tt).

Definition addCredentialSets (sh : shell.Shell) (host : Host)
    (files : list string) : M (Errorable unit) :=
  let filesArg := JsString.join " " (map quoted files) in
  invokeObj sh host "credential add" filesArg [] (fun _ => tt).

Definition deleteCredentialSet (sh : shell.Shell) (host : Host)
    (credentialSetName : string) : M (Errorable unit) :=
  invokeObj sh host "credential remove" credentialSetName [] (fun _ => tt).

Definition generateCredentialsForFile (sh : shell.Shell) (host : Host)
    (bundleFilePath name : string) : M (Errorable unit) :=
  invokeObj sh host "credentials generate"
            (name ++ " -f " ++ quoted bundleFilePath) [] (fun _ => tt).

Definition generateCredentialsForBundle (sh : shell.Shell) (host : Host)
    (bundleName name : string) : M (Errorable unit) :=
  invokeObj sh host "credentials generate" (name ++ " " ++ bundleName) []
            (fun _ => tt).

(** ** The target shell *)

(** Modelled from the spec: the shell that reads the rendered command line
    is outside the sources.  This is the word splitting and quoting of the
    POSIX shell command language: blanks separate words; inside single
    quotes every character is literal; a backslash outside quotes makes the
    next character literal; inside double quotes a backslash escapes only
    dollar, backquote, double quote and backslash.  The answer is [None] as
    soon as the line holds anything the shell would act upon instead of
    reading it as literal text (an operator, an expansion, a pattern
    character, a comment, a newline, an unterminated quote): [Some ws] says
    that the line is exactly the argument words [ws]. *)
Module Posix.

Inductive Mode : Type := Bare | BareEsc | Single | Double | DoubleEsc.

Definition is_blank (c : ascii) : bool :=
  match nat_of_ascii c with
  | 9 | 32 => true
  | _ => false
  end.

(** Characters that are active outside quotes: newline, exclamation mark,
    hash, dollar, ampersand, parentheses, star, semicolon, angle brackets,
    question mark, square brackets, backquote, braces, bar and tilde. *)
Definition is_special (c : ascii) : bool :=
  match nat_of_ascii c with
  | 10 | 33 | 35 | 36 | 38 | 40 | 41 | 42 | 59 | 60 | 62 | 63
  | 91 | 93 | 96 | 123 | 124 | 125 | 126 => true
  | _ => false
  end.

Definition DOLLAR : ascii := ascii_of_nat 36.
Definition BACKQUOTE : ascii := ascii_of_nat 96.

Definition word_of (cur : option string) : string :=
  match cur with
  | None => EmptyString
  | Some w => w
  end.

Definition push (cur : option string) (c : ascii) : option string :=
  Some (word_of cur ++ String c EmptyString).

Definition open_word (cur : option string) : option string :=
  Some (word_of cur).

Definition close_word (cur : option string) (done : list string)
  : list string :=
  match cur with
  | None => done
  | Some w => (done ++ [w])%list
  end.

(** [cur] is the word being read ([None] between words), [done] the words
    already read. *)
Fixpoint scan (m : Mode) (cur : option string) (done : list string)
    (s : string) : option (list string) :=
  match s with
  | EmptyString =>
      match m with
      | Bare => Some (close_word cur done)
      | _ => None
      end
  | String c rest =>
      match m with
      | Bare =>
          if Ascii.eqb c shell.SQ then scan Single (open_word cur) done rest
          else if Ascii.eqb c shell.DQ then scan Double (open_word cur) done rest
          else if Ascii.eqb c shell.BS then scan BareEsc cur done rest
          else if is_blank c then scan Bare None (close_word cur done) rest
          else if is_special c then None
          else scan Bare (push cur c) done rest
      | BareEsc =>
          if Ascii.eqb c JsString.LF then scan Bare cur done rest
          else scan Bare (push cur c) done rest
      | Single =>
          if Ascii.eqb c shell.SQ then scan Bare cur done rest
          else scan Single (push cur c) done rest
      | Double =>
          if Ascii.eqb c shell.DQ then scan Bare cur done rest
          else if Ascii.eqb c shell.BS then scan DoubleEsc cur done rest
          else if Ascii.eqb c DOLLAR || Ascii.eqb c BACKQUOTE then None
          else scan Double (push cur c) done rest
      | DoubleEsc =>
          if Ascii.eqb c DOLLAR || Ascii.eqb c BACKQUOTE
             || Ascii.eqb c shell.DQ || Ascii.eqb c shell.BS
          then scan Double (push cur c) done rest
          else if Ascii.eqb c JsString.LF then scan Double cur done rest
          else scan Double (push (push cur shell.BS) c) done rest
      end
  end.

Definition words (line : string) : option (list string) :=
  scan Bare None [] line.

End Posix.


(** ** Vocabulary of the properties *)

(** The state after one more process was run. *)
Definition after (c : shell.Call) (st : State) : State :=
  mkState (duffle st) (calls st ++ [c])%list (console st).

Definition system_probe : shell.Call := shell.Exec "duffle version".

(** The system probe, run after the calls [log], does not exit with 0. *)
Definition system_probe_fails (sh : shell.Shell) (log : list shell.Call) : Prop :=
  exited_zero (shell.run sh log "duffle version") = false.

(** No usable resource-bundle root: [!process.resourcesPath]. *)
Definition no_resource_root (host : Host) : Prop :=
  JsString.truthy_opt (resourcesPath host) = false.

(** A version probe of some binary. *)
Definition is_probe (c : shell.Call) : Prop :=
  exists binPath, c = shell.Exec (binPath ++ " version").

Definition set_token (k v : string) : string :=
  "--set " ++ k ++ "=" ++ shell.safeValue v.

(** The parameter rendering as the specification words it: go through the
    entries in iteration order, leave out each entry whose value is empty,
    and give one [--set key=escaped-value] token for each other entry. *)
Fixpoint rendered_entries (m : pairs.StringMap) : list string :=
  match m with
  | [] => []
  | (k, v) :: rest =>
      if JsString.is_empty v then rendered_entries rest
      else set_token k v :: rendered_entries rest
  end.

(** The words a shell is meant to read from the rendering of a mapping. *)
Fixpoint intended_words (m : pairs.StringMap) : list string :=
  match m with
  | [] => []
  | (k, v) :: rest =>
      if JsString.is_empty v then intended_words rest
      else "--set" :: (k ++ "=" ++ v) :: intended_words rest
  end.

(** Every key of the mapping is made of plain characters. *)
Definition plain_keys (m : pairs.StringMap) : bool :=
  forallb (fun kv => shell.all_plain (fst kv)) m.

(** The list parser as the specification words it: trim each line and drop
    the lines that are then empty. *)
Fixpoint trimmed_lines (lines : list string) : list string :=
  match lines with
  | [] => []
  | l :: rest =>
      if JsString.is_empty (JsString.trim l) then trimmed_lines rest
      else JsString.trim l :: trimmed_lines rest
  end.

Fixpoint occurs (c : ascii) (s : string) : bool :=
  match s with
  | EmptyString => false
  | String d rest => Ascii.eqb d c || occurs c rest
  end.

Definition NL : string := String JsString.LF EmptyString.

Fixpoint all_white (s : string) : bool :=
  match s with
  | EmptyString => true
  | String c rest => JsString.is_white_space c && all_white rest
  end.

Definition starts_white (s : string) : bool :=
  match s with
  | EmptyString => false
  | String c _ => JsString.is_white_space c
  end.

Fixpoint ends_white (s : string) : bool :=
  match s with
  | EmptyString => false
  | String c EmptyString => JsString.is_white_space c
  | String _ rest => ends_white rest
  end.

(** ** Concrete collaborators used to run the model *)

Definition simple_join (a b : string) : string := a ++ "/" ++ b.

Definition report (desc : string) (r : shell.ShellResult) : list string :=
  [desc ++ " error: " ++ shell.stderr r].

(** A machine without duffle: no process can be started. *)
Definition no_duffle_shell : shell.Shell :=
  shell.mkShell (fun _ _ => Failed ["spawn failed"]) report shell.Linux "/home/user".

(** The same on a platform for which no binary is bundled. *)
Definition exotic_shell : shell.Shell :=
  shell.mkShell (fun _ _ => Failed ["spawn failed"]) report shell.Unsupported
                "/home/user".

Definition v123_output : string := "v1.2.3" ++ NL.

(** A machine with duffle v1.2.3 on the [PATH]. *)
Definition path_duffle_shell : shell.Shell :=
  shell.mkShell
    (fun _ cmd =>
       if String.eqb cmd "duffle version"
       then Succeeded (shell.mkShellResult 0 v123_output EmptyString)
       else Failed ["spawn failed"])
    report shell.Linux "/home/user".

(** Running outside a packaged application: no resource root. *)
Definition bare_host : Host := mkHost None None simple_join.

(** A packaged application. *)
Definition packaged_host : Host := mkHost (Some "/opt/app/resources") None simple_join.

Definition example_params : pairs.StringMap :=
  [("x", "1"); ("y", EmptyString)].

(** A value holding a quote, blanks, a semicolon, a dollar sign, double
    quotes, backquotes, a backslash and operators. *)
Definition hostile_value : string :=
  "it's; rm -rf $HOME " ++ String shell.DQ ("x" ++ String shell.DQ " `id` \ | &").

Definition example_stdout : string :=
  "a" ++ NL ++ "  b  " ++ NL ++ NL ++ "c" ++ NL.

(** A call that runs the command of an operation, as opposed to a probe. *)
Definition is_command (c : shell.Call) : bool :=
  match c with
  | shell.ExecObj _ _ => true
  | shell.Exec _ => false
  end.

(** ** Vocabulary of the further properties *)

(** The call by which an operation runs its command with binary [b]. *)
Definition op_call (b : BinaryInfo) (op : string * string) : shell.Call :=
  shell.ExecObj (path b ++ " " ++ fst op ++ " " ++ snd op) ("duffle " ++ fst op).

(** Operations issued one after the other, each given as its keyword and
    its argument string. *)
Fixpoint perform_all (sh : shell.Shell) (host : Host)
    (ops : list (string * string)) : M (list (Errorable unit)) :=
  match ops with
  | [] => ret []
  | op :: rest =>
      r <- invokeObj sh host (fst op) (snd op) [] (fun _ => tt) ;;
      rs <- perform_all sh host rest ;;
      ret (r :: rs)
  end.

(** A parsed line as a caller wants it: not empty, no white space at
    either end, no newline inside. *)
Definition clean_line (l : string) : bool :=
  negb (JsString.is_empty l) && negb (starts_white l)
  && negb (ends_white l) && negb (occurs JsString.LF l).

(** Text that double quotes hold together: no double quote, backslash,
    dollar sign or backquote in it. *)
Fixpoint dq_safe (s : string) : bool :=
  match s with
  | EmptyString => true
  | String c rest =>
      negb (Ascii.eqb c shell.DQ || Ascii.eqb c shell.BS
            || Ascii.eqb c Posix.DOLLAR || Ascii.eqb c Posix.BACKQUOTE)
      && dq_safe rest
  end.

(** A word the shell reads as it stands: plain characters, at least one. *)
Definition plain_word (s : string) : bool :=
  negb (JsString.is_empty s) && shell.all_plain s.

(** The words a shell is meant to read from the credential argument. *)
Definition credential_words (credentialSet : option string) : list string :=
  match credentialSet with
  | Some c => if JsString.truthy c then ["-c"; c] else []
  | None => []
  end.

(** A credential set that needs no quoting, or none at all. *)
Definition plain_credential (credentialSet : option string) : bool :=
  match credentialSet with
  | Some c => JsString.is_empty c || shell.all_plain c
  | None => true
  end.

(** A packaged application on a machine without duffle on the [PATH]. *)
Definition bundled_duffle_shell : shell.Shell :=
  shell.mkShell
    (fun _ cmd =>
       if String.eqb cmd "/opt/app/resources/dufflebin/linux/duffle version"
       then Succeeded (shell.mkShellResult 0 (" v0.1.0 " ++ NL) EmptyString)
       else Failed ["spawn failed"])
    report shell.Linux "/home/user".

(** A machine where duffle runs and every command prints two bundles. *)
Definition working_shell : shell.Shell :=
  shell.mkShell
    (fun _ cmd =>
       if String.eqb cmd "duffle version"
       then Succeeded (shell.mkShellResult 0 v123_output EmptyString)
       else Succeeded (shell.mkShellResult 0 ("wordpress" ++ NL ++ "mysql" ++ NL)
                                           EmptyString))
    report shell.Linux "/home/user".

Definition found_v123 : BinaryInfo := mkBinaryInfo "duffle" "v1.2.3".

(** * Properties *)

(** ** Strings *)

Lemma append_nil_r (s : string) : s ++ EmptyString = s.
Proof.
  induction s as [|c s IH]; simpl; [reflexivity | rewrite IH; reflexivity].
Qed.

Lemma append_assoc (s t u : string) : (s ++ t) ++ u = s ++ (t ++ u).
Proof.
  induction s as [|c s IH]; simpl; [reflexivity | rewrite IH; reflexivity].
Qed.

Lemma length_append (s t : string) :
  String.length (s ++ t) = String.length s + String.length t.
Proof.
  induction s as [|c s IH]; simpl; [reflexivity | rewrite IH; reflexivity].
Qed.

(** ** The resolver and its cache *)

Section Resolver.

Variable sh : shell.Shell.
Variable host : Host.

Lemma core_system_hit (st : State) :
  exited_zero (shell.run sh (calls st) "duffle version") = true ->
  findDuffleBinaryCore sh host st =
    (Some (mkBinaryInfo "duffle"
             (JsString.trim
                (result_stdout (shell.run sh (calls st) "duffle version")))),
     after system_probe st).
Proof.
  intros Hz.
  unfold findDuffleBinaryCore, bind, sh_exec, spawn.
  rewrite Hz. reflexivity.
Qed.

Lemma core_unsupported_platform (st : State) :
  system_probe_fails sh (calls st) ->
  duffleResourcePath (shell.platform sh) = None ->
  findDuffleBinaryCore sh host st = (None, after system_probe st).
Proof.
  intros Hf Hp.
  unfold findDuffleBinaryCore, bind, sh_exec, spawn.
  rewrite Hf, Hp. reflexivity.
Qed.

Lemma core_no_root (st : State) :
  system_probe_fails sh (calls st) ->
  no_resource_root host ->
  findDuffleBinaryCore sh host st = (None, after system_probe st).
Proof.
  intros Hf Hr.
  unfold findDuffleBinaryCore, bind, sh_exec, spawn.
  rewrite Hf.
  destruct (duffleResourcePath (shell.platform sh)) as [rp|]; [|reflexivity].
  destruct (negb (JsString.truthy rp)); [reflexivity|].
  unfold no_resource_root in Hr.
  destruct (resourcesPath host) as [root|]; [|reflexivity].
  simpl in Hr. rewrite Hr. reflexivity.
Qed.

(** A filled cache answers without touching the collaborator. *)
Lemma find_cached (b : BinaryInfo) (st : State) :
  duffle st = Some b ->
  findDuffleBinary sh host st = (Some b, st).
Proof.
  intros Hc.
  unfold findDuffleBinary, bind, get_duffle.
  rewrite Hc. simpl. rewrite Hc. reflexivity.
Qed.

(** On an empty cache the resolver runs and its answer is stored. *)
Lemma find_uncached (st : State) :
  duffle st = None ->
  findDuffleBinary sh host st =
    (fst (findDuffleBinaryCore sh host st),
     mkState (fst (findDuffleBinaryCore sh host st))
             (calls (snd (findDuffleBinaryCore sh host st)))
             (console (snd (findDuffleBinaryCore sh host st)))).
Proof.
  intros Hc.
  unfold findDuffleBinary, bind, get_duffle, set_duffle.
  rewrite Hc.
  destruct (findDuffleBinaryCore sh host st) as [found st']. reflexivity.
Qed.

Lemma core_effect (st : State) :
  exists probes,
    calls (snd (findDuffleBinaryCore sh host st)) = (calls st ++ probes)%list
    /\ Forall is_probe probes
    /\ hd_error probes = Some system_probe
    /\ (length probes = 1 \/ length probes = 2)
    /\ console (snd (findDuffleBinaryCore sh host st)) = console st.
Proof.
  assert (P1 : is_probe system_probe) by (exists "duffle"; reflexivity).
  unfold findDuffleBinaryCore, bind, sh_exec, spawn.
  destruct (exited_zero (shell.run sh (calls st) "duffle version")).
  { exists [system_probe]. simpl. repeat split; auto. }
  destruct (duffleResourcePath (shell.platform sh)) as [rp|].
  2:{ exists [system_probe]. simpl. repeat split; auto. }
  destruct (negb (JsString.truthy rp)).
  { exists [system_probe]. simpl. repeat split; auto. }
  destruct (resourcesPath host) as [root|].
  2:{ exists [system_probe]. simpl. repeat split; auto. }
  destruct (negb (JsString.truthy root)).
  { exists [system_probe]. simpl. repeat split; auto. }
  exists [system_probe; shell.Exec (path_join host root rp ++ " version")].
  assert (P2 : is_probe (shell.Exec (path_join host root rp ++ " version")))
    by (eexists; reflexivity).
  destruct (exited_zero _); simpl; rewrite <- app_assoc; simpl;
    repeat split; auto.
Qed.

End Resolver.

(** ** Resolution *)

(** What an operation does never empties a filled cache. *)
Lemma invoke_keeps_cache {T : Type} (sh : shell.Shell) (host : Host)
    (command args : string) (opts : shell.ExecOpts) (fn : string -> T)
    (b : BinaryInfo) (st : State) :
  duffle st = Some b ->
  duffle (snd (invokeObj sh host command args opts fn st)) = Some b.
Proof.
  intros Hc.
  unfold invokeObj, bind.
  rewrite (find_cached sh host b st Hc).
  unfold console_log, sh_execObj, bind, spawn, andLog, bind, console_log, ret.
  simpl.
  destruct (shell.run sh (calls st) _) as [r|e]; [|exact Hc].
  destruct (Z.eqb (shell.code r) 0); exact Hc.
Qed.

(** C4.  When the system probe exits with status 0 and prints ["v1.2.3\n"],
    resolution on an empty cache returns the binary with path ["duffle"] and
    the trimmed version ["v1.2.3"], having run that one process.  From then
    on the cache holds it: operations keep it there, and a second
    resolution, whatever the shell and host then look like, returns the same
    binary and leaves the state as it is, so no further process is run. *)
Theorem system_hit_resolved_once
    (sh : shell.Shell) (host : Host) (st : State) (r : shell.ShellResult) :
  duffle st = None ->
  shell.run sh (calls st) "duffle version" = Succeeded r ->
  shell.code r = 0%Z ->
  shell.stdout r = v123_output ->
  let found := mkBinaryInfo "duffle" "v1.2.3" in
  findDuffleBinary sh host st
  = (Some found,
     mkState (Some found) (calls st ++ [system_probe])%list (console st))
  /\ (forall sh' host' st',
        duffle st' = Some found ->
        findDuffleBinary sh' host' st' = (Some found, st'))
  /\ (forall (T : Type) sh' host' command args opts (fn : string -> T) st',
        duffle st' = Some found ->
        duffle (snd (invokeObj sh' host' command args opts fn st')) = Some found).
Proof.
  intros Hc Hrun Hcode Hout found.
  assert (Hz : exited_zero (shell.run sh (calls st) "duffle version") = true).
  { rewrite Hrun. unfold exited_zero. cbn [succeeded andb].
    rewrite Hcode. reflexivity. }
  split; [|split].
  - rewrite (find_uncached sh host st Hc).
    rewrite (core_system_hit sh host st Hz).
    rewrite Hrun. simpl. rewrite Hout. reflexivity.
  - intros sh' host' st' Hc'. apply find_cached. exact Hc'.
  - intros T sh' host' command args opts fn st' Hc'.
    apply invoke_keeps_cache. exact Hc'.
Qed.

Lemma system_hit_resolved_once_witness :
  let found := mkBinaryInfo "duffle" "v1.2.3" in
  let st1 := mkState (Some found) [system_probe] [] in
  findDuffleBinary path_duffle_shell bare_host initial = (Some found, st1)
  /\ findDuffleBinary no_duffle_shell packaged_host st1 = (Some found, st1)
  /\ duffle (snd (upgrade no_duffle_shell packaged_host "mybundle" st1))
     = Some found.
Proof.
  destruct (system_hit_resolved_once path_duffle_shell bare_host initial
              (shell.mkShellResult 0 v123_output EmptyString)
              eq_refl eq_refl eq_refl eq_refl) as (Hfirst & Hagain & Hkeep).
  split; [exact Hfirst|].
  split; [apply Hagain; reflexivity|].
  apply Hkeep. reflexivity.
Defined.

(** C9.  When the system probe fails and the platform is none of Windows,
    Linux and macOS, there is no resource path and resolution ends
    unavailable after that single probe: the calls grow by the system probe
    alone, and the outcome is the same for every host, whatever its
    resource root and path joining. *)
Theorem unsupported_platform_stops_probing
    (sh : shell.Shell) (host : Host) (st : State) :
  duffle st = None ->
  system_probe_fails sh (calls st) ->
  shell.platform sh <> shell.Windows ->
  shell.platform sh <> shell.Linux ->
  shell.platform sh <> shell.MacOS ->
  duffleResourcePath (shell.platform sh) = None
  /\ findDuffleBinaryCore sh host st = (None, after system_probe st)
  /\ findDuffleBinary sh host st = (None, after system_probe st)
  /\ calls (snd (findDuffleBinary sh host st))
     = (calls st ++ [shell.Exec "duffle version"])%list
  /\ (forall host', findDuffleBinary sh host' st = findDuffleBinary sh host st).
Proof.
  intros Hc Hf Hw Hl Hm.
  assert (Hp : duffleResourcePath (shell.platform sh) = None).
  { destruct (shell.platform sh); try reflexivity; congruence. }
  assert (Hfind : forall h, findDuffleBinary sh h st = (None, after system_probe st)).
  { intros h.
    rewrite (find_uncached sh h st Hc).
    rewrite (core_unsupported_platform sh h st Hf Hp).
    unfold after. simpl. rewrite Hc. reflexivity. }
  split; [exact Hp|].
  split; [apply core_unsupported_platform; assumption|].
  split; [apply Hfind|].
  split; [rewrite Hfind; reflexivity|].
  intros host'. rewrite !Hfind. reflexivity.
Qed.

Lemma unsupported_platform_stops_probing_witness :
  duffleResourcePath (shell.platform exotic_shell) = None
  /\ findDuffleBinaryCore exotic_shell packaged_host initial
     = (None, after system_probe initial)
  /\ findDuffleBinary exotic_shell packaged_host initial
     = (None, after system_probe initial)
  /\ calls (snd (findDuffleBinary exotic_shell packaged_host initial))
     = (calls initial ++ [shell.Exec "duffle version"])%list
  /\ (forall host', findDuffleBinary exotic_shell host' initial
                    = findDuffleBinary exotic_shell packaged_host initial).
Proof.
  apply (unsupported_platform_stops_probing exotic_shell packaged_host initial).
  - reflexivity.
  - reflexivity.
  - simpl; discriminate.
  - simpl; discriminate.
  - simpl; discriminate.
Defined.

(** ** The invocation facade when no binary is found *)

Lemma invoke_unavailable {T : Type} (sh : shell.Shell) (host : Host)
    (command args : string) (opts : shell.ExecOpts) (fn : string -> T)
    (st st' : State) :
  findDuffleBinary sh host st = (None, st') ->
  invokeObj sh host command args opts fn st = (Failed [cannot_find_duffle], st').
Proof.
  intros Hfind. unfold invokeObj, bind. rewrite Hfind. reflexivity.
Qed.

Lemma find_failed_uncached (sh : shell.Shell) (host : Host) (st : State) :
  fst (findDuffleBinary sh host st) = None -> duffle st = None.
Proof.
  intros Hnone.
  destruct (duffle st) as [b|] eqn:Hc; [|reflexivity].
  rewrite (find_cached sh host b st Hc) in Hnone. discriminate.
Qed.

(** C1, as the code has it.  When the system probe fails and there is no
    resource root, resolution yields unavailable after that one probe and
    the cache stays empty: the failure is not remembered.  Every later
    operation therefore resolves again, which runs the system probe once
    more; while that probe still fails the operation fails with the
    cannot-find message and the real command is not run. *)
Theorem failed_resolution_probes_again
    (sh : shell.Shell) (host : Host) (st : State) :
  duffle st = None ->
  system_probe_fails sh (calls st) ->
  no_resource_root host ->
  let st1 := after system_probe st in
  findDuffleBinary sh host st = (None, st1)
  /\ duffle st1 = None
  /\ forall (T : Type) (command args : string) (opts : shell.ExecOpts)
            (fn : string -> T),
      system_probe_fails sh (calls st1) ->
      invokeObj sh host command args opts fn st1
      = (Failed [cannot_find_duffle], after system_probe st1).
Proof.
  intros Hc Hf Hr st1.
  assert (Hstep : forall s, duffle s = None -> system_probe_fails sh (calls s) ->
                            findDuffleBinary sh host s = (None, after system_probe s)).
  { intros s Hs Hfs.
    rewrite (find_uncached sh host s Hs).
    rewrite (core_no_root sh host s Hfs Hr).
    unfold after. simpl. rewrite Hs. reflexivity. }
  split; [apply Hstep; assumption|].
  split; [exact Hc|].
  intros T command args opts fn Hf1.
  apply invoke_unavailable. apply Hstep; [exact Hc | exact Hf1].
Qed.

Lemma failed_resolution_probes_again_witness :
  findDuffleBinary no_duffle_shell bare_host initial
  = (None, after system_probe initial)
  /\ duffle (after system_probe initial) = None
  /\ uninstall no_duffle_shell bare_host "mybundle" (after system_probe initial)
     = (Failed [cannot_find_duffle],
        after system_probe (after system_probe initial)).
Proof.
  destruct (failed_resolution_probes_again no_duffle_shell bare_host initial
              eq_refl eq_refl eq_refl) as (Hfirst & Hcache & Hnext).
  split; [exact Hfirst|].
  split; [exact Hcache|].
  apply Hnext. reflexivity.
Defined.

(** C1 as stated fails: on a machine without duffle and without a resource
    root, resolution fails after one probe, and the next operation runs the
    system probe a second time. *)
Lemma failure_not_memoized :
  fst (findDuffleBinary no_duffle_shell bare_host initial) = None
  /\ calls (snd (findDuffleBinary no_duffle_shell bare_host initial))
     = [shell.Exec "duffle version"]
  /\ fst (list_ no_duffle_shell bare_host
            (snd (findDuffleBinary no_duffle_shell bare_host initial)))
     = Failed [cannot_find_duffle]
  /\ calls (snd (list_ no_duffle_shell bare_host
                   (snd (findDuffleBinary no_duffle_shell bare_host initial))))
     = [shell.Exec "duffle version"; shell.Exec "duffle version"].
Proof.
  repeat split.
Qed.

Lemma probes_are_not_commands (probes : list shell.Call) :
  Forall is_probe probes -> existsb is_command probes = false.
Proof.
  induction 1 as [|c rest [binPath ->] _ IH]; [reflexivity | exact IH].
Qed.

(** C5.  An operation whose resolution yields unavailable returns the
    failure carrying the single cannot-find message, and no process is run
    for the operation: [execObj] is never invoked, nothing is printed and
    the cache stays empty.  The only calls recorded are the version probes
    by which the resolution of that call found no binary (the system probe
    first, at most one more). *)
Theorem unavailable_short_circuits
    (T : Type) (sh : shell.Shell) (host : Host) (command args : string)
    (opts : shell.ExecOpts) (fn : string -> T) (st : State) :
  fst (findDuffleBinary sh host st) = None ->
  exists probes,
    invokeObj sh host command args opts fn st
    = (Failed [cannot_find_duffle],
       mkState None (calls st ++ probes)%list (console st))
    /\ Forall is_probe probes
    /\ hd_error probes = Some system_probe
    /\ (length probes = 1 \/ length probes = 2)
    /\ existsb is_command probes = false.
Proof.
  intros Hnone.
  pose proof (find_failed_uncached sh host st Hnone) as Hc.
  pose proof (find_uncached sh host st Hc) as Hfind.
  rewrite Hfind in Hnone. simpl in Hnone.
  destruct (core_effect sh host st) as (probes & Hcalls & Hall & Hhd & Hlen & Hcon).
  exists probes. split.
  - apply invoke_unavailable.
    rewrite Hfind, Hnone, Hcalls, Hcon. reflexivity.
  - repeat split; try assumption. apply probes_are_not_commands, Hall.
Qed.

Lemma unavailable_short_circuits_witness :
  exists probes,
    invokeObj no_duffle_shell packaged_host "list" EmptyString [] list_parse initial
    = (Failed [cannot_find_duffle],
       mkState None (calls initial ++ probes)%list (console initial))
    /\ Forall is_probe probes
    /\ hd_error probes = Some system_probe
    /\ (length probes = 1 \/ length probes = 2)
    /\ existsb is_command probes = false.
Proof.
  apply (unavailable_short_circuits (list string) no_duffle_shell packaged_host
           "list" EmptyString [] list_parse initial).
  reflexivity.
Defined.

(** ** The command builder *)

Lemma paramsArgs_tokens (m : pairs.StringMap) :
  map (fun p => "--set " ++ pairs.key p ++ "=" ++ shell.safeValue (pairs.value p))
      (filter (fun p => JsString.truthy (pairs.value p)) (pairs.fromStringMap m))
  = rendered_entries m.
Proof.
  induction m as [|[k v] rest IH]; [reflexivity|].
  destruct v as [|c v'].
  - exact IH.
  - transitivity (set_token k (String c v') :: rendered_entries rest);
      [|reflexivity].
    rewrite <- IH. reflexivity.
Qed.

Lemma rendered_entries_app (m1 m2 : pairs.StringMap) :
  rendered_entries (m1 ++ m2)%list = (rendered_entries m1 ++ rendered_entries m2)%list.
Proof.
  induction m1 as [|[k v] rest IH]; [reflexivity|].
  simpl. destruct (JsString.is_empty v); simpl; rewrite IH; reflexivity.
Qed.

Lemma rendered_some_nonempty (m : pairs.StringMap) (t : string)
    (ts : list string) :
  rendered_entries m = t :: ts ->
  JsString.is_empty (JsString.join " " (t :: ts)) = false.
Proof.
  revert t ts.
  induction m as [|[k v] rest IH]; intros t ts H; [discriminate|].
  simpl in H. destruct (JsString.is_empty v); [eapply IH; eassumption|].
  injection H as <- <-. destruct (rendered_entries rest); reflexivity.
Qed.

(** C6.  [paramsArgs] is the space-joined sequence of the tokens of the
    non-empty entries, in the mapping's iteration order; an entry whose
    value is the empty string leaves no trace, wherever it stands.  Entry
    by entry: the empty mapping renders to the empty string; an entry with
    an empty value is skipped; an entry with a non-empty value renders as
    [--set key=escaped-value], followed by one space and the rendering of
    the remaining entries when that is not empty. *)
Theorem paramsArgs_drops_empty_values :
  (forall m, paramsArgs m = JsString.join " " (rendered_entries m))
  /\ (forall front k back,
        paramsArgs (front ++ (k, EmptyString) :: back)%list
        = paramsArgs (front ++ back)%list)
  /\ (forall front k c v back,
        rendered_entries (front ++ (k, String c v) :: back)%list
        = (rendered_entries front
             ++ set_token k (String c v) :: rendered_entries back)%list)
  /\ paramsArgs [] = EmptyString
  /\ (forall k m, paramsArgs ((k, EmptyString) :: m) = paramsArgs m)
  /\ (forall k c v m,
        paramsArgs ((k, String c v) :: m)
        = if JsString.is_empty (paramsArgs m)
          then "--set " ++ k ++ "=" ++ shell.safeValue (String c v)
          else "--set " ++ k ++ "=" ++ shell.safeValue (String c v)
                        ++ " " ++ paramsArgs m).
Proof.
  assert (Hjoin : forall m, paramsArgs m = JsString.join " " (rendered_entries m)).
  { intros m. unfold paramsArgs. rewrite paramsArgs_tokens. reflexivity. }
  split; [exact Hjoin|]. split; [|split; [|split; [|split]]].
  - intros front k back.
    rewrite !Hjoin, !rendered_entries_app. reflexivity.
  - intros front k c v back.
    rewrite rendered_entries_app. reflexivity.
  - reflexivity.
  - intros k m. rewrite !Hjoin. reflexivity.
  - intros k c v m. rewrite !Hjoin.
    cbn [rendered_entries JsString.is_empty].
    destruct (rendered_entries m) as [|t ts] eqn:Hts; [reflexivity|].
    rewrite (rendered_some_nonempty m t ts Hts).
    change (JsString.join " " (set_token k (String c v) :: t :: ts))
      with (set_token k (String c v) ++ " " ++ JsString.join " " (t :: ts)).
    unfold set_token. rewrite !append_assoc. reflexivity.
Qed.

(** C7.  Without a credential set the credential argument is empty, so the
    rendered install arguments end after the parameters and carry no [-c];
    with the set ["myset"] the credential argument is exactly [-c myset]. *)
Theorem credentialArg_absent_and_myset :
  credentialArg None = EmptyString
  /\ credentialArg (Some "myset") = "-c myset"
  /\ (forall bundleName name params,
        installBundle_args bundleName name params None
        = name ++ " " ++ bundleName ++ " " ++ paramsArgs params ++ " ")
  /\ (forall bundleFilePath name params,
        installFile_args bundleFilePath name params None
        = name ++ " -f " ++ quoted bundleFilePath ++ " " ++ paramsArgs params ++ " ")
  /\ (forall bundleName name params,
        installBundle_args bundleName name params (Some "myset")
        = name ++ " " ++ bundleName ++ " " ++ paramsArgs params ++ " -c myset").
Proof.
  repeat split.
Qed.

(** C10.  A credential set that is present but empty is rendered like an
    absent one: the credential argument is empty and the install arguments
    are those of a call without credential set. *)
Theorem credentialArg_empty_like_absent :
  credentialArg (Some EmptyString) = credentialArg None
  /\ credentialArg (Some EmptyString) = EmptyString
  /\ (forall bundleName name params,
        installBundle_args bundleName name params (Some EmptyString)
        = installBundle_args bundleName name params None)
  /\ (forall bundleFilePath name params,
        installFile_args bundleFilePath name params (Some EmptyString)
        = installFile_args bundleFilePath name params None).
Proof.
  repeat split.
Qed.

(** C2, as the code has it.  [installBundle] takes the installation name
    as well as the bundle name and renders the name first: for bundle
    ["foo"], parameters [{x: "1", y: ""}] and credential set ["creds"] the
    arguments are the name followed by [ foo --set x=1 -c creds], the [y]
    entry dropped, and they are handed to the facade under [install]. *)
Theorem installBundle_foo_args (sh : shell.Shell) (host : Host) (name : string) :
  installBundle_args "foo" name example_params (Some "creds")
  = name ++ " foo --set x=1 -c creds"
  /\ installBundle sh host "foo" name example_params (Some "creds")
     = invokeObj sh host "install" (name ++ " foo --set x=1 -c creds") []
                 (fun _ => tt).
Proof.
  split; reflexivity.
Qed.

(** C2 as stated fails: with the installation name ["mydb"] the arguments
    are [mydb foo --set x=1 -c creds], and no installation name at all
    makes them [foo --set x=1 -c creds]. *)
Lemma install_args_carry_the_name :
  installBundle_args "foo" "mydb" example_params (Some "creds")
  = "mydb foo --set x=1 -c creds"
  /\ ~ (exists name,
          installBundle_args "foo" name example_params (Some "creds")
          = "foo --set x=1 -c creds").
Proof.
  split; [reflexivity|].
  intros [name H].
  apply (f_equal String.length) in H.
  change (installBundle_args "foo" name example_params (Some "creds"))
    with (name ++ " foo --set x=1 -c creds") in H.
  rewrite length_append in H. simpl in H. lia.
Qed.

(** ** The list parser *)

Lemma split_nonempty (sep : ascii) (s : string) : JsString.split sep s <> [].
Proof.
  destruct s as [|c rest]; simpl; [discriminate|].
  destruct (Ascii.eqb c sep); [discriminate|].
  destruct (JsString.split sep rest); discriminate.
Qed.

Lemma join_cons (sep x : string) (y : string) (ys : list string) :
  JsString.join sep (x :: y :: ys) = x ++ sep ++ JsString.join sep (y :: ys).
Proof. reflexivity. Qed.

(** Joining the pieces with the separator gives the text back. *)
Lemma join_split (sep : ascii) (s : string) :
  JsString.join (String sep EmptyString) (JsString.split sep s) = s.
Proof.
  induction s as [|c rest IH]; [reflexivity|].
  simpl JsString.split.
  pose proof (split_nonempty sep rest) as Hne.
  destruct (Ascii.eqb c sep) eqn:Hc.
  - apply Ascii.eqb_eq in Hc. subst c.
    destruct (JsString.split sep rest) as [|piece pieces]; [congruence|].
    rewrite join_cons, IH. reflexivity.
  - destruct (JsString.split sep rest) as [|piece pieces]; [congruence|].
    destruct pieces as [|p2 ps].
    + simpl in *. rewrite IH. reflexivity.
    + rewrite <- IH, !join_cons. reflexivity.
Qed.

(** No piece holds the separator. *)
Lemma split_pieces_clean (sep : ascii) (s : string) :
  forallb (fun l => negb (occurs sep l)) (JsString.split sep s) = true.
Proof.
  induction s as [|c rest IH]; [reflexivity|].
  simpl JsString.split.
  destruct (Ascii.eqb c sep) eqn:Hc.
  - simpl. exact IH.
  - destruct (JsString.split sep rest) as [|piece pieces]; simpl.
    + rewrite Hc. reflexivity.
    + simpl in IH. rewrite Hc. simpl. exact IH.
Qed.

Lemma trimStart_parts (s : string) :
  exists pre, s = pre ++ JsString.trimStart s
              /\ all_white pre = true
              /\ starts_white (JsString.trimStart s) = false.
Proof.
  induction s as [|c rest (pre & Heq & Hpre & Hhd)].
  - exists EmptyString. repeat split.
  - simpl. destruct (JsString.is_white_space c) eqn:Hc.
    + exists (String c pre). simpl. rewrite Hc, Hpre, <- Heq. repeat split.
      exact Hhd.
    + exists EmptyString. simpl. repeat split. exact Hc.
Qed.

Lemma trimEnd_parts (s : string) :
  exists post, s = JsString.trimEnd s ++ post
               /\ all_white post = true
               /\ ends_white (JsString.trimEnd s) = false.
Proof.
  induction s as [|c rest (post & Heq & Hpost & Hlast)].
  - exists EmptyString. repeat split.
  - simpl. destruct (JsString.trimEnd rest) as [|d r] eqn:Hr.
    + destruct (JsString.is_white_space c) eqn:Hc; simpl.
      * exists (String c post). simpl in Heq.
        simpl. rewrite Hc, Hpost, <- Heq. repeat split.
      * exists post. simpl in Heq.
        split; [simpl; rewrite <- Heq; reflexivity|].
        split; [exact Hpost | exact Hc].
    + rewrite andb_false_r.
      exists post.
      split; [simpl; simpl in Heq; rewrite <- Heq; reflexivity|].
      split; [exact Hpost | exact Hlast].
Qed.

Lemma trimEnd_keeps_start (s : string) :
  starts_white s = false -> starts_white (JsString.trimEnd s) = false.
Proof.
  destruct s as [|c rest]; [reflexivity|].
  simpl. intros Hc. rewrite Hc. simpl. exact Hc.
Qed.

(** [trim] removes a run of white space at each end and nothing else. *)
Lemma trim_parts (s : string) :
  exists pre post,
    s = pre ++ JsString.trim s ++ post
    /\ all_white pre = true /\ all_white post = true
    /\ starts_white (JsString.trim s) = false
    /\ ends_white (JsString.trim s) = false.
Proof.
  destruct (trimStart_parts s) as (pre & Heq & Hpre & Hhd).
  destruct (trimEnd_parts (JsString.trimStart s)) as (post & Heq' & Hpost & Hlast).
  exists pre, post. unfold JsString.trim.
  rewrite <- Heq', <- Heq.
  repeat split; try assumption.
  apply trimEnd_keeps_start. exact Hhd.
Qed.

Lemma list_parse_trimmed_lines (stdout : string) :
  list_parse stdout = trimmed_lines (JsString.split JsString.LF stdout).
Proof.
  unfold list_parse.
  induction (JsString.split JsString.LF stdout) as [|l rest IH]; [reflexivity|].
  simpl. rewrite IH.
  destruct (JsString.trim l); reflexivity.
Qed.

(** C8.  Both list operations hand the facade the same parser.  It splits
    stdout at the newlines (the pieces hold no newline and give stdout back
    when joined by newlines), trims each line (a run of white space is
    taken off each end) and drops the lines that are then empty, keeping
    the order; ["a\n  b  \n\nc\n"] parses to [a], [b], [c]. *)
Theorem list_output_parser :
  (forall stdout,
      list_parse stdout = trimmed_lines (JsString.split JsString.LF stdout)
      /\ listCredentialSets_parse stdout = list_parse stdout
      /\ JsString.join NL (JsString.split JsString.LF stdout) = stdout
      /\ forallb (fun l => negb (occurs JsString.LF l))
                 (JsString.split JsString.LF stdout) = true)
  /\ (forall l, exists pre post,
        l = pre ++ JsString.trim l ++ post
        /\ all_white pre = true /\ all_white post = true
        /\ starts_white (JsString.trim l) = false
        /\ ends_white (JsString.trim l) = false)
  /\ list_parse example_stdout = ["a"; "b"; "c"]
  /\ listCredentialSets_parse example_stdout = ["a"; "b"; "c"]
  /\ (forall sh host,
        list_ sh host = invokeObj sh host "list" EmptyString [] list_parse
        /\ listCredentialSets sh host
           = invokeObj sh host "credentials list" EmptyString []
                       listCredentialSets_parse).
Proof.
  split.
  { intros stdout. split; [apply list_parse_trimmed_lines|].
    split; [reflexivity|].
    split; [apply join_split | apply split_pieces_clean]. }
  split; [exact trim_parts|].
  repeat split.
Qed.

(** ** Reading the rendered parameters back *)

Lemma all_plain_app (s t : string) :
  shell.all_plain (s ++ t) = shell.all_plain s && shell.all_plain t.
Proof.
  induction s as [|c s IH]; simpl; [reflexivity|].
  rewrite IH, andb_assoc. reflexivity.
Qed.

(** A plain character is none of the characters the shell acts upon. *)
Lemma plain_char_is_literal (c : ascii) :
  shell.is_plain_char c = true ->
  Ascii.eqb c shell.SQ = false /\ Ascii.eqb c shell.DQ = false
  /\ Ascii.eqb c shell.BS = false /\ Posix.is_blank c = false
  /\ Posix.is_special c = false.
Proof.
  destruct c as [[] [] [] [] [] [] [] []]; vm_compute; intros H;
    try discriminate H; repeat split.
Qed.

Lemma scan_bare_plain (c : ascii) (cur : option string) (done : list string)
    (rest : string) :
  shell.is_plain_char c = true ->
  Posix.scan Posix.Bare cur done (String c rest)
  = Posix.scan Posix.Bare (Posix.push cur c) done rest.
Proof.
  intros Hc.
  destruct (plain_char_is_literal c Hc) as (H1 & H2 & H3 & H4 & H5).
  simpl. rewrite H1, H2, H3, H4, H5. reflexivity.
Qed.

(** A run of plain characters joins the word being read. *)
Lemma scan_plain (v : string) :
  shell.all_plain v = true -> v <> EmptyString ->
  forall cur done rest,
    Posix.scan Posix.Bare cur done (v ++ rest)
    = Posix.scan Posix.Bare (Some (Posix.word_of cur ++ v)) done rest.
Proof.
  induction v as [|c v IH]; [congruence|].
  intros Hall _ cur done rest.
  simpl in Hall. apply andb_true_iff in Hall. destruct Hall as [Hc Hv].
  change (String c v ++ rest) with (String c (v ++ rest)).
  rewrite (scan_bare_plain c cur done (v ++ rest) Hc).
  destruct v as [|d v'].
  - reflexivity.
  - rewrite (IH Hv ltac:(discriminate)).
    unfold Posix.push. simpl Posix.word_of.
    rewrite append_assoc. reflexivity.
Qed.

(** Inside single quotes the escaped text is read as the text itself. *)
Lemma scan_single_quoted (v : string) :
  forall w done rest,
    Posix.scan Posix.Single (Some w) done
               (shell.escape_single_quotes v ++ String shell.SQ rest)
    = Posix.scan Posix.Bare (Some (w ++ v)) done rest.
Proof.
  induction v as [|c v IH]; intros w done rest.
  - simpl. rewrite append_nil_r. reflexivity.
  - simpl shell.escape_single_quotes.
    destruct (Ascii.eqb c shell.SQ) eqn:Hc.
    + apply Ascii.eqb_eq in Hc. subst c.
      change (Posix.scan Posix.Single (Some (w ++ String shell.SQ EmptyString)) done
                (shell.escape_single_quotes v ++ String shell.SQ rest)
              = Posix.scan Posix.Bare (Some (w ++ String shell.SQ v)) done rest).
      rewrite IH, append_assoc. reflexivity.
    + simpl. rewrite Hc.
      change (Posix.push (Some w) c) with (Some (w ++ String c EmptyString)).
      rewrite IH, append_assoc. reflexivity.
Qed.

(** The escaped value is read back as the value, whatever it holds. *)
Lemma scan_safeValue (v w : string) (done : list string) (rest : string) :
  Posix.scan Posix.Bare (Some w) done (shell.safeValue v ++ rest)
  = Posix.scan Posix.Bare (Some (w ++ v)) done rest.
Proof.
  unfold shell.safeValue.
  destruct (JsString.truthy v && shell.all_plain v) eqn:Hplain.
  - apply andb_true_iff in Hplain. destruct Hplain as [Hne Hall].
    apply (scan_plain v Hall).
    destruct v; [discriminate Hne | discriminate].
  - change (String shell.SQ
              (shell.escape_single_quotes v ++ String shell.SQ EmptyString) ++ rest)
      with (String shell.SQ
              ((shell.escape_single_quotes v ++ String shell.SQ EmptyString) ++ rest)).
    rewrite append_assoc.
    change (String shell.SQ EmptyString ++ rest) with (String shell.SQ rest).
    change (Posix.scan Posix.Single (Some w) done
              (shell.escape_single_quotes v ++ String shell.SQ rest)
            = Posix.scan Posix.Bare (Some (w ++ v)) done rest).
    apply scan_single_quoted.
Qed.

(** One rendered token is read as the flag and one more word. *)
Lemma scan_set_token (k v : string) (done : list string) (rest : string) :
  shell.all_plain k = true ->
  Posix.scan Posix.Bare None done (set_token k v ++ rest)
  = Posix.scan Posix.Bare (Some (k ++ "=" ++ v)) (done ++ ["--set"])%list rest.
Proof.
  intros Hk.
  assert (Hshape : set_token k v ++ rest
                   = "--set " ++ (k ++ "=") ++ (shell.safeValue v ++ rest)).
  { unfold set_token. rewrite !append_assoc. reflexivity. }
  rewrite Hshape.
  change (Posix.scan Posix.Bare None done
            ("--set " ++ (k ++ "=") ++ shell.safeValue v ++ rest))
    with (Posix.scan Posix.Bare None (done ++ ["--set"])%list
            ((k ++ "=") ++ shell.safeValue v ++ rest)).
  rewrite scan_plain.
  - simpl Posix.word_of. simpl append at 1.
    rewrite scan_safeValue, append_assoc. reflexivity.
  - rewrite all_plain_app, Hk. reflexivity.
  - destruct k; discriminate.
Qed.

Lemma scan_rendered_entries (m : pairs.StringMap) :
  plain_keys m = true ->
  forall done,
    Posix.scan Posix.Bare None done (JsString.join " " (rendered_entries m))
    = Some (done ++ intended_words m)%list.
Proof.
  induction m as [|[k v] rest IH]; intros Hkeys done.
  - simpl. rewrite app_nil_r. reflexivity.
  - simpl in Hkeys. apply andb_true_iff in Hkeys. destruct Hkeys as [Hk Hrest].
    specialize (IH Hrest).
    simpl rendered_entries. simpl intended_words.
    destruct (JsString.is_empty v); [apply IH|].
    destruct (rendered_entries rest) as [|t ts] eqn:Hts.
    + pose proof (IH []) as Hnil. simpl in Hnil.
      injection Hnil as Hnil. rewrite <- Hnil.
      simpl JsString.join.
      rewrite <- (append_nil_r (set_token k v)).
      rewrite (scan_set_token k v done EmptyString Hk).
      simpl. rewrite <- app_assoc. reflexivity.
    + rewrite join_cons.
      rewrite (scan_set_token k v done _ Hk).
      change (Posix.scan Posix.Bare (Some (k ++ "=" ++ v)) (done ++ ["--set"])%list
                (" " ++ JsString.join " " (t :: ts)))
        with (Posix.scan Posix.Bare None
                ((done ++ ["--set"]) ++ [(k ++ "=" ++ v)%string])%list
                (JsString.join " " (t :: ts))).
      rewrite IH, <- !app_assoc. reflexivity.
Qed.

(** C3, as the code has it.  [paramsArgs] escapes the value and writes
    the key as it stands.  With the escaping modelled after the
    specification, a rendered [--set] token whose key is made of plain
    characters is read back by the shell as exactly two words, the flag and
    [key=value] with the original value, for every value: blanks, quotes,
    semicolons, dollar signs and all other characters included.  The same
    holds for a whole mapping with such keys: its rendering is read back as
    the flag and one [key=value] word per non-empty entry and nothing
    else. *)
Theorem set_token_round_trip (k v : string) (m : pairs.StringMap) :
  shell.all_plain k = true ->
  plain_keys m = true ->
  Posix.words (set_token k v) = Some ["--set"; k ++ "=" ++ v]
  /\ Posix.words (paramsArgs m) = Some (intended_words m).
Proof.
  intros Hk Hm. split.
  - unfold Posix.words.
    rewrite <- (append_nil_r (set_token k v)).
    rewrite (scan_set_token k v [] EmptyString Hk). reflexivity.
  - unfold Posix.words, paramsArgs.
    rewrite paramsArgs_tokens.
    rewrite (scan_rendered_entries m Hm []). reflexivity.
Qed.

Lemma set_token_round_trip_witness :
  Posix.words (set_token "password" hostile_value)
  = Some ["--set"; "password=" ++ hostile_value]
  /\ Posix.words
       (paramsArgs [("a", hostile_value); ("b", EmptyString); ("c", "1")])
     = Some (intended_words
               [("a", hostile_value); ("b", EmptyString); ("c", "1")]).
Proof.
  apply (set_token_round_trip "password" hostile_value
           [("a", hostile_value); ("b", EmptyString); ("c", "1")]);
    reflexivity.
Defined.

(** C3 as stated fails: the key is not escaped, so with a semicolon in
    the key the rendered token is not read back as arguments at all, for
    this value and for whatever text the escaping puts after the key. *)
Lemma unescaped_key_breaks_round_trip :
  paramsArgs [("k;x", "v w")] = "--set k;x=" ++ shell.safeValue "v w"
  /\ Posix.words (paramsArgs [("k;x", "v w")]) = None
  /\ (forall escaped, Posix.words ("--set k;x=" ++ escaped) = None).
Proof.
  repeat split.
Qed.

(** * Further properties *)

(** ** Resolution: the two probes *)

Lemma resource_path_truthy (p : shell.Platform) (rp : string) :
  duffleResourcePath p = Some rp -> JsString.truthy rp = true.
Proof.
  destruct p; simpl; intros H; inversion H; reflexivity.
Qed.

(** The resolver when the system probe fails and a bundled binary can be
    looked for: the second probe decides. *)
Lemma core_bundled (sh : shell.Shell) (host : Host) (st : State)
    (root rp : string) :
  system_probe_fails sh (calls st) ->
  duffleResourcePath (shell.platform sh) = Some rp ->
  resourcesPath host = Some root ->
  JsString.truthy root = true ->
  findDuffleBinaryCore sh host st
  = (if exited_zero (shell.run sh (calls st ++ [system_probe])%list
                               (path_join host root rp ++ " version"))
     then Some (mkBinaryInfo (path_join host root rp)
                  (JsString.trim
                     (result_stdout
                        (shell.run sh (calls st ++ [system_probe])%list
                                   (path_join host root rp ++ " version")))))
     else None,
     after (shell.Exec (path_join host root rp ++ " version"))
           (after system_probe st)).
Proof.
  intros Hf Hp Hroot Ht.
  unfold findDuffleBinaryCore, bind, sh_exec, spawn.
  rewrite Hf, Hp, (resource_path_truthy _ _ Hp), Hroot, Ht.
  cbn [negb calls duffle console].
  fold system_probe.
  destruct (exited_zero _); reflexivity.
Qed.

(** X1.  Whenever the system probe exits with status 0, whatever it prints
    and whatever the platform and the resource root are, resolution on an
    empty cache returns the path ["duffle"] with the trimmed stdout as
    version, runs that one process only, and stores the binary. *)
Theorem system_binary_preferred
    (sh : shell.Shell) (host : Host) (st : State) (r : shell.ShellResult) :
  duffle st = None ->
  shell.run sh (calls st) "duffle version" = Succeeded r ->
  shell.code r = 0%Z ->
  let b := mkBinaryInfo "duffle" (JsString.trim (shell.stdout r)) in
  findDuffleBinary sh host st
  = (Some b, mkState (Some b) (calls st ++ [system_probe])%list (console st)).
Proof.
  intros Hc Hrun Hcode b.
  assert (Hz : exited_zero (shell.run sh (calls st) "duffle version") = true).
  { rewrite Hrun. unfold exited_zero. cbn [succeeded andb].
    rewrite Hcode. reflexivity. }
  rewrite (find_uncached sh host st Hc), (core_system_hit sh host st Hz), Hrun.
  reflexivity.
Qed.

Lemma system_binary_preferred_witness :
  findDuffleBinary path_duffle_shell packaged_host initial
  = (Some found_v123, mkState (Some found_v123) [system_probe] []).
Proof.
  exact (system_binary_preferred path_duffle_shell packaged_host initial
           (shell.mkShellResult 0 v123_output EmptyString)
           eq_refl eq_refl eq_refl).
Defined.

(** X2.  When the system probe fails, the platform has a bundled binary
    and the host has a non-empty resource root, the binary under the root
    is probed after the system one; if that probe exits with status 0 the
    joined path and its trimmed stdout are returned and stored, after
    exactly these two processes. *)
Theorem bundled_binary_found
    (sh : shell.Shell) (host : Host) (st : State) (root rp : string)
    (r : shell.ShellResult) :
  duffle st = None ->
  system_probe_fails sh (calls st) ->
  duffleResourcePath (shell.platform sh) = Some rp ->
  resourcesPath host = Some root ->
  JsString.truthy root = true ->
  shell.run sh (calls st ++ [system_probe])%list
            (path_join host root rp ++ " version") = Succeeded r ->
  shell.code r = 0%Z ->
  let binPath := path_join host root rp in
  let b := mkBinaryInfo binPath (JsString.trim (shell.stdout r)) in
  findDuffleBinary sh host st
  = (Some b,
     mkState (Some b)
             (calls st ++ [system_probe; shell.Exec (binPath ++ " version")])%list
             (console st)).
Proof.
  intros Hc Hf Hp Hroot Ht Hrun Hcode binPath b.
  rewrite (find_uncached sh host st Hc).
  rewrite (core_bundled sh host st root rp Hf Hp Hroot Ht).
  rewrite Hrun.
  unfold exited_zero. cbn [succeeded andb]. rewrite Hcode.
  cbn [Z.eqb fst snd after calls console duffle result_stdout].
  rewrite <- app_assoc. reflexivity.
Qed.

Lemma bundled_binary_found_witness :
  findDuffleBinary bundled_duffle_shell packaged_host initial
  = (Some (mkBinaryInfo "/opt/app/resources/dufflebin/linux/duffle" "v0.1.0"),
     mkState
       (Some (mkBinaryInfo "/opt/app/resources/dufflebin/linux/duffle" "v0.1.0"))
       [system_probe;
        shell.Exec "/opt/app/resources/dufflebin/linux/duffle version"]
       []).
Proof.
  exact (bundled_binary_found bundled_duffle_shell packaged_host initial
           "/opt/app/resources" "dufflebin/linux/duffle"
           (shell.mkShellResult 0 (" v0.1.0 " ++ NL) EmptyString)
           eq_refl eq_refl eq_refl eq_refl eq_refl eq_refl eq_refl).
Defined.

(** X3.  Under the same conditions, if the bundled probe does not exit
    with status 0 either, resolution yields unavailable after exactly the
    two probes and the cache stays empty. *)
Theorem bundled_binary_missing
    (sh : shell.Shell) (host : Host) (st : State) (root rp : string) :
  duffle st = None ->
  system_probe_fails sh (calls st) ->
  duffleResourcePath (shell.platform sh) = Some rp ->
  resourcesPath host = Some root ->
  JsString.truthy root = true ->
  exited_zero (shell.run sh (calls st ++ [system_probe])%list
                         (path_join host root rp ++ " version")) = false ->
  findDuffleBinary sh host st
  = (None,
     mkState None
             (calls st ++ [system_probe;
                           shell.Exec (path_join host root rp ++ " version")])%list
             (console st)).
Proof.
  intros Hc Hf Hp Hroot Ht Hfail.
  rewrite (find_uncached sh host st Hc).
  rewrite (core_bundled sh host st root rp Hf Hp Hroot Ht).
  rewrite Hfail.
  cbn [fst snd after calls console duffle].
  rewrite <- app_assoc. reflexivity.
Qed.

Lemma bundled_binary_missing_witness :
  findDuffleBinary no_duffle_shell packaged_host initial
  = (None,
     mkState None
       [system_probe;
        shell.Exec "/opt/app/resources/dufflebin/linux/duffle version"]
       []).
Proof.
  exact (bundled_binary_missing no_duffle_shell packaged_host initial
           "/opt/app/resources" "dufflebin/linux/duffle"
           eq_refl eq_refl eq_refl eq_refl eq_refl eq_refl).
Defined.

Lemma trim_clean_ends (s : string) :
  starts_white (JsString.trim s) = false /\ ends_white (JsString.trim s) = false.
Proof.
  destruct (trim_parts s) as (pre & post & _ & _ & _ & Hs & He).
  split; assumption.
Qed.

(** X4.  A binary that resolution finds has one of two shapes: the bare
    name ["duffle"], or the platform's resource path joined to the host's
    non-empty resource root; its version carries no white space at either
    end; and it is what the cache holds afterwards. *)
Theorem resolved_binary_shape
    (sh : shell.Shell) (host : Host) (st : State) (b : BinaryInfo) :
  duffle st = None ->
  fst (findDuffleBinary sh host st) = Some b ->
  (path b = "duffle"
   \/ exists root rp,
       resourcesPath host = Some root /\ JsString.truthy root = true
       /\ duffleResourcePath (shell.platform sh) = Some rp
       /\ path b = path_join host root rp)
  /\ starts_white (version b) = false
  /\ ends_white (version b) = false
  /\ duffle (snd (findDuffleBinary sh host st)) = Some b.
Proof.
  intros Hc Hfound.
  rewrite (find_uncached sh host st Hc) in *.
  cbn [fst snd duffle] in *.
  split; [|split; [|split; [|exact Hfound]]];
    revert Hfound;
    unfold findDuffleBinaryCore, bind, sh_exec, spawn;
    destruct (exited_zero (shell.run sh (calls st) "duffle version"));
    cbn [fst ret];
    try (intros H; injection H as <-; cbn [path version];
         first [left; reflexivity | apply trim_clean_ends]);
    destruct (duffleResourcePath (shell.platform sh)) as [rp|];
    cbn [fst ret]; try discriminate;
    destruct (negb (JsString.truthy rp)); cbn [fst ret]; try discriminate;
    destruct (resourcesPath host) as [root|];
    cbn [fst ret]; try discriminate;
    destruct (JsString.truthy root) eqn:Ht;
    cbn [negb fst ret]; try discriminate;
    destruct (exited_zero _); cbn [fst ret]; try discriminate;
    intros H; injection H as <-; cbn [path version];
    first [ right; exists root, rp; repeat split; assumption
          | apply trim_clean_ends ].
Qed.

Lemma resolved_binary_shape_witness :
  (path (mkBinaryInfo "/opt/app/resources/dufflebin/linux/duffle" "v0.1.0")
   = "duffle"
   \/ exists root rp,
       resourcesPath packaged_host = Some root /\ JsString.truthy root = true
       /\ duffleResourcePath (shell.platform bundled_duffle_shell) = Some rp
       /\ path (mkBinaryInfo "/opt/app/resources/dufflebin/linux/duffle" "v0.1.0")
          = path_join packaged_host root rp)
  /\ starts_white "v0.1.0" = false
  /\ ends_white "v0.1.0" = false
  /\ duffle (snd (findDuffleBinary bundled_duffle_shell packaged_host initial))
     = Some (mkBinaryInfo "/opt/app/resources/dufflebin/linux/duffle" "v0.1.0").
Proof.
  exact (resolved_binary_shape bundled_duffle_shell packaged_host initial
           (mkBinaryInfo "/opt/app/resources/dufflebin/linux/duffle" "v0.1.0")
           eq_refl eq_refl).
Defined.

(** ** The facade with a binary at hand *)

(** What [invokeObj] does once resolution has given binary [b] and left
    state [st']. *)
Lemma invoke_with_binary {T : Type} (sh : shell.Shell) (host : Host)
    (command args : string) (opts : shell.ExecOpts) (fn : string -> T)
    (b : BinaryInfo) (st st' : State) :
  findDuffleBinary sh host st = (Some b, st') ->
  let cmd := path b ++ " " ++ command ++ " " ++ args in
  let logged := (console st' ++ [("$ " ++ cmd)%string])%list in
  let ran := (calls st' ++ [shell.ExecObj cmd ("duffle " ++ command)])%list in
  invokeObj sh host command args opts fn st
  = match shell.run sh (calls st') cmd with
    | Succeeded r =>
        if Z.eqb (shell.code r) 0
        then (Succeeded (fn (shell.stdout r)),
              mkState (duffle st') ran (logged ++ [shell.stdout r])%list)
        else (Failed (shell.errorDetail sh ("duffle " ++ command) r),
              mkState (duffle st') ran logged)
    | Failed e => (Failed e, mkState (duffle st') ran logged)
    end.
Proof.
  intros Hfind cmd logged ran.
  unfold invokeObj, bind. rewrite Hfind.
  fold cmd.
  unfold console_log, sh_execObj, bind, spawn, andLog, bind, console_log, ret.
  cbn [calls duffle console].
  destruct (shell.run sh (calls st') cmd) as [r|e]; [|reflexivity].
  destruct (Z.eqb (shell.code r) 0); reflexivity.
Qed.

(** X5.  With a binary in the cache an operation runs exactly one process,
    the command line made of the cached path, the operation keyword and
    the arguments, separated by single spaces, under the description
    [duffle <keyword>]; no probe is run and the cache is untouched.  The
    command line is printed first; on exit status 0 stdout is printed too
    and the parser's value of it is the result; otherwise the parser is not
    applied and the collaborator's failure is the result. *)
Theorem cached_operation_runs_one_command
    (T : Type) (sh : shell.Shell) (host : Host) (command args : string)
    (opts : shell.ExecOpts) (fn : string -> T) (b : BinaryInfo) (st : State) :
  duffle st = Some b ->
  let cmd := path b ++ " " ++ command ++ " " ++ args in
  let out := invokeObj sh host command args opts fn st in
  calls (snd out) = (calls st ++ [shell.ExecObj cmd ("duffle " ++ command)])%list
  /\ duffle (snd out) = Some b
  /\ match shell.run sh (calls st) cmd with
     | Succeeded r =>
         if Z.eqb (shell.code r) 0
         then fst out = Succeeded (fn (shell.stdout r))
              /\ console (snd out)
                 = (console st ++ [("$ " ++ cmd)%string; shell.stdout r])%list
         else fst out = Failed (shell.errorDetail sh ("duffle " ++ command) r)
              /\ console (snd out) = (console st ++ [("$ " ++ cmd)%string])%list
     | Failed e =>
         fst out = Failed e
         /\ console (snd out) = (console st ++ [("$ " ++ cmd)%string])%list
     end.
Proof.
  intros Hc cmd out. subst out.
  rewrite (invoke_with_binary sh host command args opts fn b st st
             (find_cached sh host b st Hc)).
  fold cmd.
  destruct (shell.run sh (calls st) cmd) as [r|e].
  - destruct (Z.eqb (shell.code r) 0); cbn [fst snd calls duffle console];
      rewrite <- ?app_assoc; repeat split; assumption.
  - cbn [fst snd calls duffle console]. repeat split; assumption.
Qed.

Lemma cached_operation_runs_one_command_witness :
  calls (snd (list_ working_shell bare_host
                (mkState (Some found_v123) [system_probe] [])))
  = [system_probe; shell.ExecObj "duffle list " "duffle list"]
  /\ duffle (snd (list_ working_shell bare_host
                    (mkState (Some found_v123) [system_probe] [])))
     = Some found_v123
  /\ fst (list_ working_shell bare_host
            (mkState (Some found_v123) [system_probe] []))
     = Succeeded ["wordpress"; "mysql"]
  /\ console (snd (list_ working_shell bare_host
                     (mkState (Some found_v123) [system_probe] [])))
     = ["$ duffle list "; ("wordpress" ++ NL ++ "mysql" ++ NL)%string].
Proof.
  destruct (cached_operation_runs_one_command (list string) working_shell
              bare_host "list" EmptyString [] list_parse found_v123
              (mkState (Some found_v123) [system_probe] []) eq_refl)
    as (Hcalls & Hcache & Hres & Hlog).
  repeat split; assumption.
Defined.

(** X6.  The first operation on a machine with duffle on the [PATH] runs
    two processes in this order: the version probe, then its own command
    with the bare name ["duffle"] as the binary; the cache is filled on the
    way. *)
Theorem first_operation_probes_then_runs
    (T : Type) (sh : shell.Shell) (host : Host) (command args : string)
    (opts : shell.ExecOpts) (fn : string -> T) (st : State)
    (r : shell.ShellResult) :
  duffle st = None ->
  shell.run sh (calls st) "duffle version" = Succeeded r ->
  shell.code r = 0%Z ->
  let out := invokeObj sh host command args opts fn st in
  calls (snd out)
  = (calls st ++ [shell.Exec "duffle version";
                  shell.ExecObj ("duffle " ++ command ++ " " ++ args)
                                ("duffle " ++ command)])%list
  /\ duffle (snd out)
     = Some (mkBinaryInfo "duffle" (JsString.trim (shell.stdout r))).
Proof.
  intros Hc Hrun Hcode out. subst out.
  assert (Hz : exited_zero (shell.run sh (calls st) "duffle version") = true).
  { rewrite Hrun. unfold exited_zero. cbn [succeeded andb].
    rewrite Hcode. reflexivity. }
  pose proof (find_uncached sh host st Hc) as Hfind.
  rewrite (core_system_hit sh host st Hz), Hrun in Hfind.
  cbn [fst snd after calls console result_stdout] in Hfind.
  rewrite (invoke_with_binary sh host command args opts fn _ st _ Hfind).
  cbn [path calls duffle console].
  destruct (shell.run sh (calls st ++ [system_probe])%list _) as [r'|e].
  - destruct (Z.eqb (shell.code r') 0); cbn [fst snd calls duffle];
      rewrite <- app_assoc; split; reflexivity.
  - cbn [fst snd calls duffle]. rewrite <- app_assoc. split; reflexivity.
Qed.

Lemma first_operation_probes_then_runs_witness :
  calls (snd (uninstall working_shell bare_host "wordpress" initial))
  = [shell.Exec "duffle version";
     shell.ExecObj "duffle uninstall wordpress" "duffle uninstall"]
  /\ duffle (snd (uninstall working_shell bare_host "wordpress" initial))
     = Some found_v123.
Proof.
  exact (first_operation_probes_then_runs unit working_shell bare_host
           "uninstall" "wordpress" [] (fun _ => tt) initial
           (shell.mkShellResult 0 v123_output EmptyString)
           eq_refl eq_refl eq_refl).
Defined.

Lemma cached_invoke_effect {T : Type} (sh : shell.Shell) (host : Host)
    (command args : string) (opts : shell.ExecOpts) (fn : string -> T)
    (b : BinaryInfo) (st : State) :
  duffle st = Some b ->
  calls (snd (invokeObj sh host command args opts fn st))
  = (calls st ++ [op_call b (command, args)])%list
  /\ duffle (snd (invokeObj sh host command args opts fn st)) = Some b.
Proof.
  intros Hc.
  rewrite (invoke_with_binary sh host command args opts fn b st st
             (find_cached sh host b st Hc)).
  unfold op_call. cbn [fst snd].
  destruct (shell.run sh (calls st) _) as [r|e].
  - destruct (Z.eqb (shell.code r) 0); cbn [fst snd calls duffle];
      split; (reflexivity || assumption).
  - cbn [fst snd calls duffle]. split; (reflexivity || assumption).
Qed.

Lemma perform_all_cons (sh : shell.Shell) (host : Host)
    (op : string * string) (rest : list (string * string)) (st : State) :
  perform_all sh host (op :: rest) st
  = (fst (invokeObj sh host (fst op) (snd op) [] (fun _ => tt) st)
       :: fst (perform_all sh host rest
                 (snd (invokeObj sh host (fst op) (snd op) [] (fun _ => tt) st))),
     snd (perform_all sh host rest
            (snd (invokeObj sh host (fst op) (snd op) [] (fun _ => tt) st)))).
Proof.
  cbn [perform_all]. unfold bind, ret.
  destruct (invokeObj sh host (fst op) (snd op) [] (fun _ => tt) st) as [r1 st1].
  cbn [fst snd].
  destruct (perform_all sh host rest st1) as [rs st2]. reflexivity.
Qed.

(** X7.  Once the cache holds a binary, however many operations follow,
    none of them probes again: the processes run are exactly the commands
    of the operations, one each and in order, all with the cached path, and
    the cache still holds the same binary at the end. *)
Theorem cached_binary_never_reresolved
    (sh : shell.Shell) (host : Host) (ops : list (string * string))
    (b : BinaryInfo) (st : State) :
  duffle st = Some b ->
  calls (snd (perform_all sh host ops st))
  = (calls st ++ map (op_call b) ops)%list
  /\ duffle (snd (perform_all sh host ops st)) = Some b
  /\ length (fst (perform_all sh host ops st)) = length ops.
Proof.
  revert st.
  induction ops as [|op rest IH]; intros st Hc.
  - simpl. rewrite app_nil_r. repeat split. exact Hc.
  - rewrite perform_all_cons. cbn [fst snd].
    destruct (cached_invoke_effect sh host (fst op) (snd op)
                [] (fun _ : string => tt) b st Hc) as (Hcalls & Hcache).
    destruct (IH _ Hcache) as (IHcalls & IHcache & IHlen).
    rewrite IHcalls, Hcalls, <- app_assoc.
    change (op_call b (fst op, snd op)) with (op_call b op).
    repeat split; [exact IHcache | cbn [length]; rewrite IHlen; reflexivity].
Qed.

Lemma cached_binary_never_reresolved_witness :
  calls (snd (perform_all no_duffle_shell packaged_host
                [("list", EmptyString); ("upgrade", "wordpress")]
                (mkState (Some found_v123) [system_probe] [])))
  = [system_probe;
     shell.ExecObj "duffle list " "duffle list";
     shell.ExecObj "duffle upgrade wordpress" "duffle upgrade"]
  /\ duffle (snd (perform_all no_duffle_shell packaged_host
                    [("list", EmptyString); ("upgrade", "wordpress")]
                    (mkState (Some found_v123) [system_probe] [])))
     = Some found_v123
  /\ length (fst (perform_all no_duffle_shell packaged_host
                    [("list", EmptyString); ("upgrade", "wordpress")]
                    (mkState (Some found_v123) [system_probe] [])))
     = 2.
Proof.
  exact (cached_binary_never_reresolved no_duffle_shell packaged_host
           [("list", EmptyString); ("upgrade", "wordpress")] found_v123
           (mkState (Some found_v123) [system_probe] []) eq_refl).
Defined.

(** ** The list parser: what a caller can rely on *)

Lemma occurs_app (c : ascii) (a b : string) :
  occurs c (a ++ b) = occurs c a || occurs c b.
Proof.
  induction a as [|d a IH]; simpl; [reflexivity|].
  rewrite IH, orb_assoc. reflexivity.
Qed.

Lemma trim_adds_nothing (c : ascii) (s : string) :
  occurs c s = false -> occurs c (JsString.trim s) = false.
Proof.
  intros Hs.
  destruct (trim_parts s) as (pre & post & Heq & _).
  rewrite Heq, !occurs_app in Hs.
  apply orb_false_iff in Hs. destruct Hs as [_ Hs].
  apply orb_false_iff in Hs. destruct Hs as [Hs _]. exact Hs.
Qed.

Lemma trimmed_lines_clean (ls : list string) :
  forallb (fun l => negb (occurs JsString.LF l)) ls = true ->
  forallb clean_line (trimmed_lines ls) = true.
Proof.
  induction ls as [|l rest IH]; [reflexivity|].
  simpl. intros H. apply andb_true_iff in H. destruct H as [Hl Hrest].
  destruct (JsString.is_empty (JsString.trim l)) eqn:He; [apply IH, Hrest|].
  simpl. rewrite (IH Hrest), andb_true_r.
  unfold clean_line. rewrite He.
  destruct (trim_clean_ends l) as [Hs Hw]. rewrite Hs, Hw.
  apply negb_true_iff in Hl.
  rewrite (trim_adds_nothing JsString.LF l Hl). reflexivity.
Qed.

Lemma list_parse_clean (stdout : string) :
  forallb clean_line (list_parse stdout) = true.
Proof.
  rewrite list_parse_trimmed_lines.
  apply trimmed_lines_clean, split_pieces_clean.
Qed.

(** X8.  Every entry that the list parser returns is non-empty, has no
    white space at either end and holds no newline. *)
Theorem parsed_entries_are_clean (stdout : string) :
  forallb clean_line (list_parse stdout) = true
  /\ forallb clean_line (listCredentialSets_parse stdout) = true.
Proof.
  split; apply list_parse_clean.
Qed.

Lemma split_app (sep : ascii) (a b : string) :
  JsString.split sep (a ++ String sep b)
  = (JsString.split sep a ++ JsString.split sep b)%list.
Proof.
  induction a as [|c a IH].
  - simpl. rewrite Ascii.eqb_refl. reflexivity.
  - cbn [append JsString.split]. rewrite IH.
    destruct (Ascii.eqb c sep); [reflexivity|].
    pose proof (split_nonempty sep a) as Hne.
    destruct (JsString.split sep a) as [|p ps]; [congruence|reflexivity].
Qed.

Lemma trimmed_lines_app (l1 l2 : list string) :
  trimmed_lines (l1 ++ l2) = (trimmed_lines l1 ++ trimmed_lines l2)%list.
Proof.
  induction l1 as [|l rest IH]; [reflexivity|].
  simpl. destruct (JsString.is_empty (JsString.trim l)); simpl;
    rewrite IH; reflexivity.
Qed.

Lemma list_parse_app (a b : string) :
  list_parse (a ++ NL ++ b) = (list_parse a ++ list_parse b)%list.
Proof.
  rewrite !list_parse_trimmed_lines.
  change (a ++ NL ++ b) with (a ++ String JsString.LF b).
  rewrite split_app, trimmed_lines_app. reflexivity.
Qed.

(** X9.  The parser works line by line: the entries of two outputs put
    one after the other with a newline between them are the entries of the
    first followed by the entries of the second; a newline at the end adds
    nothing. *)
Theorem parse_is_linewise (a b : string) :
  list_parse (a ++ NL ++ b) = (list_parse a ++ list_parse b)%list
  /\ listCredentialSets_parse (a ++ NL ++ b)
     = (listCredentialSets_parse a ++ listCredentialSets_parse b)%list
  /\ list_parse (a ++ NL) = list_parse a.
Proof.
  split; [apply list_parse_app|]. split; [apply list_parse_app|].
  rewrite <- (append_nil_r NL) at 1.
  rewrite list_parse_app. apply app_nil_r.
Qed.

Lemma trimStart_white (s : string) :
  all_white s = true -> JsString.trimStart s = EmptyString.
Proof.
  induction s as [|c s IH]; [reflexivity|].
  simpl. intros H. apply andb_true_iff in H. destruct H as [Hc Hs].
  rewrite Hc. apply IH, Hs.
Qed.

Lemma split_white (sep : ascii) (s : string) :
  all_white s = true -> forallb all_white (JsString.split sep s) = true.
Proof.
  induction s as [|c s IH]; [reflexivity|].
  simpl. intros H. apply andb_true_iff in H. destruct H as [Hc Hs].
  specialize (IH Hs).
  destruct (Ascii.eqb c sep); [exact IH|].
  destruct (JsString.split sep s) as [|p ps]; simpl.
  - rewrite Hc. reflexivity.
  - simpl in IH. rewrite Hc. exact IH.
Qed.

Lemma trimmed_lines_white (ls : list string) :
  forallb all_white ls = true -> trimmed_lines ls = [].
Proof.
  induction ls as [|l rest IH]; [reflexivity|].
  simpl. intros H. apply andb_true_iff in H. destruct H as [Hl Hrest].
  unfold JsString.trim. rewrite (trimStart_white l Hl). simpl.
  apply IH, Hrest.
Qed.

(** X10.  Output that holds nothing but white space, blank lines
    included, parses to the empty list. *)
Theorem blank_output_parses_to_nothing (stdout : string) :
  all_white stdout = true ->
  list_parse stdout = [] /\ listCredentialSets_parse stdout = [].
Proof.
  intros H.
  assert (Hp : list_parse stdout = []).
  { rewrite list_parse_trimmed_lines.
    apply trimmed_lines_white, split_white, H. }
  split; exact Hp.
Qed.

Lemma blank_output_parses_to_nothing_witness :
  list_parse ("  " ++ NL ++ NL ++ " ") = []
  /\ listCredentialSets_parse ("  " ++ NL ++ NL ++ " ") = [].
Proof.
  apply (blank_output_parses_to_nothing ("  " ++ NL ++ NL ++ " ")).
  reflexivity.
Defined.

Lemma split_without_sep (sep : ascii) (s : string) :
  occurs sep s = false -> JsString.split sep s = [s].
Proof.
  induction s as [|c s IH]; [reflexivity|].
  simpl. intros H. apply orb_false_iff in H. destruct H as [Hc Hs].
  rewrite Hc, (IH Hs). reflexivity.
Qed.

Lemma trimEnd_fixed (s : string) :
  ends_white s = false -> JsString.trimEnd s = s.
Proof.
  induction s as [|c s IH]; [reflexivity|].
  intros H. cbn [JsString.trimEnd].
  destruct s as [|d s'].
  - simpl in H. simpl. rewrite H. reflexivity.
  - rewrite (IH H). simpl. rewrite andb_false_r. reflexivity.
Qed.

Lemma trim_fixed (s : string) :
  starts_white s = false -> ends_white s = false -> JsString.trim s = s.
Proof.
  intros Hs He. unfold JsString.trim.
  assert (Hstart : JsString.trimStart s = s).
  { destruct s as [|c s']; [reflexivity|]. simpl in *. rewrite Hs. reflexivity. }
  rewrite Hstart. apply trimEnd_fixed, He.
Qed.

Lemma parse_clean_line (l : string) :
  clean_line l = true -> list_parse l = [l].
Proof.
  unfold clean_line. intros H.
  apply andb_true_iff in H. destruct H as [H Hnl].
  apply andb_true_iff in H. destruct H as [H Hend].
  apply andb_true_iff in H. destruct H as [Hne Hstart].
  apply negb_true_iff in Hnl, Hend, Hstart, Hne.
  rewrite list_parse_trimmed_lines, (split_without_sep _ _ Hnl).
  simpl. rewrite (trim_fixed l Hstart Hend), Hne. reflexivity.
Qed.

(** X11.  Parsing undoes joining: clean lines joined by newlines parse
    back to exactly those lines; in particular, parsing what the parser
    returned, joined by newlines, returns it again. *)
Theorem parse_of_joined_lines (ls : list string) (stdout : string) :
  forallb clean_line ls = true ->
  list_parse (JsString.join NL ls) = ls
  /\ list_parse (JsString.join NL (list_parse stdout)) = list_parse stdout.
Proof.
  assert (Hjoin : forall xs, forallb clean_line xs = true ->
                             list_parse (JsString.join NL xs) = xs).
  { induction xs as [|x rest IH]; [reflexivity|].
    simpl forallb. intros H. apply andb_true_iff in H. destruct H as [Hx Hrest].
    destruct rest as [|y ys].
    - apply parse_clean_line, Hx.
    - rewrite join_cons, list_parse_app, (parse_clean_line x Hx), (IH Hrest).
      reflexivity. }
  intros Hls. split; [apply Hjoin, Hls|].
  apply Hjoin, list_parse_clean.
Qed.

Lemma parse_of_joined_lines_witness :
  list_parse (JsString.join NL ["wordpress"; "my sql"; "x"])
  = ["wordpress"; "my sql"; "x"]
  /\ list_parse (JsString.join NL (list_parse example_stdout))
     = list_parse example_stdout.
Proof.
  apply (parse_of_joined_lines ["wordpress"; "my sql"; "x"] example_stdout).
  reflexivity.
Defined.

(** ** The command builder: shapes of the rendering *)

Lemma rendered_none_iff (m : pairs.StringMap) :
  JsString.is_empty (JsString.join " " (rendered_entries m))
  = forallb (fun kv => JsString.is_empty (snd kv)) m.
Proof.
  induction m as [|[k v] rest IH]; [reflexivity|].
  cbn [rendered_entries forallb snd].
  destruct (JsString.is_empty v); [exact IH|].
  destruct (rendered_entries rest); reflexivity.
Qed.

Lemma paramsArgs_join (m : pairs.StringMap) :
  paramsArgs m = JsString.join " " (rendered_entries m).
Proof.
  unfold paramsArgs. rewrite paramsArgs_tokens. reflexivity.
Qed.

(** X12.  The rendered parameters are the empty string exactly when every
    value of the mapping is empty (an empty mapping included); otherwise
    the rendering starts with the flag [--set]. *)
Theorem paramsArgs_empty_iff_no_values (m : pairs.StringMap) :
  JsString.is_empty (paramsArgs m)
  = forallb (fun kv => JsString.is_empty (snd kv)) m
  /\ (if JsString.is_empty (paramsArgs m) then paramsArgs m = EmptyString
      else String.prefix "--set " (paramsArgs m) = true).
Proof.
  rewrite paramsArgs_join. split; [apply rendered_none_iff|].
  destruct (rendered_entries m) as [|t ts] eqn:Hts; [reflexivity|].
  assert (Ht : exists k v, t = set_token k v).
  { clear -Hts. revert t ts Hts.
    induction m as [|[k v] rest IH]; intros t ts Hts; [discriminate|].
    simpl in Hts. destruct (JsString.is_empty v); [eapply IH; eassumption|].
    injection Hts as <- _. eauto. }
  destruct Ht as (k & v & ->).
  destruct ts; simpl;
    match goal with
    | |- String.prefix EmptyString ?x = true => destruct x; reflexivity
    end.
Qed.

Lemma join_app (sep : string) (l1 l2 : list string) :
  l1 <> [] -> l2 <> [] ->
  JsString.join sep (l1 ++ l2)
  = JsString.join sep l1 ++ sep ++ JsString.join sep l2.
Proof.
  intros H1 H2.
  induction l1 as [|x rest IH]; [congruence|].
  destruct rest as [|y ys].
  - destruct l2 as [|z zs]; [congruence|reflexivity].
  - change ((x :: y :: ys) ++ l2)%list with (x :: (y :: ys) ++ l2)%list.
    change ((y :: ys) ++ l2)%list with (y :: ys ++ l2)%list.
    rewrite join_cons.
    change (y :: ys ++ l2)%list with ((y :: ys) ++ l2)%list.
    rewrite IH by discriminate.
    rewrite join_cons, !append_assoc. reflexivity.
Qed.

(** X13.  Rendering a mapping made of two parts one after the other gives
    the two renderings separated by one space; when one part renders to
    nothing, the result is the rendering of the other part alone, without
    a stray space. *)
Theorem paramsArgs_of_two_parts (m1 m2 : pairs.StringMap) :
  paramsArgs (m1 ++ m2)%list
  = if JsString.is_empty (paramsArgs m1) then paramsArgs m2
    else if JsString.is_empty (paramsArgs m2) then paramsArgs m1
         else paramsArgs m1 ++ " " ++ paramsArgs m2.
Proof.
  rewrite !paramsArgs_join, rendered_entries_app.
  destruct (rendered_entries m1) as [|t1 ts1] eqn:H1; [reflexivity|].
  rewrite (rendered_some_nonempty m1 t1 ts1 H1).
  destruct (rendered_entries m2) as [|t2 ts2] eqn:H2.
  - rewrite app_nil_r. reflexivity.
  - rewrite (rendered_some_nonempty m2 t2 ts2 H2).
    apply join_app; discriminate.
Qed.

(** ** Reading whole argument strings back *)

Lemma close_word_shift (cur : option string) (pre done : list string) :
  Posix.close_word cur (pre ++ done)%list
  = (pre ++ Posix.close_word cur done)%list.
Proof.
  destruct cur; simpl; [symmetry; apply app_assoc | reflexivity].
Qed.

(** Words already read do not influence how the rest is read. *)
Lemma scan_shift (pre : list string) (s : string) :
  forall m cur done,
    Posix.scan m cur (pre ++ done)%list s
    = option_map (app pre) (Posix.scan m cur done s).
Proof.
  induction s as [|c s IH]; intros m cur done.
  - destruct m; simpl; try reflexivity.
    rewrite close_word_shift. reflexivity.
  - destruct m; cbn [Posix.scan];
      repeat match goal with
             | |- context [if ?b then _ else _] => destruct b
             end;
      rewrite ?close_word_shift; try apply IH; reflexivity.
Qed.

(** A blank after a complete line starts a new word. *)
Lemma scan_then_blank (s rest : string) :
  forall m cur done ws,
    Posix.scan m cur done s = Some ws ->
    Posix.scan m cur done (s ++ String " " rest) = Posix.scan Posix.Bare None ws rest.
Proof.
  induction s as [|c s IH]; intros m cur done ws H.
  - destruct m; simpl in H; try discriminate.
    injection H as <-. reflexivity.
  - destruct m; cbn [Posix.scan append] in *;
      repeat match goal with
             | |- context [if ?b then _ else _] => destruct b
             end;
      try discriminate; apply IH; exact H.
Qed.

(** Two argument strings with a blank between them are read as the words
    of the first followed by the words of the second. *)
Lemma words_app (a b : string) (wa wb : list string) :
  Posix.words a = Some wa ->
  Posix.words b = Some wb ->
  Posix.words (a ++ " " ++ b) = Some (wa ++ wb)%list.
Proof.
  unfold Posix.words. intros Ha Hb.
  change (a ++ " " ++ b) with (a ++ String " " b).
  rewrite (scan_then_blank a b Posix.Bare None [] wa Ha).
  rewrite <- (app_nil_r wa) at 1.
  rewrite scan_shift, Hb. reflexivity.
Qed.

Lemma words_plain (s : string) :
  plain_word s = true -> Posix.words s = Some [s].
Proof.
  unfold plain_word. intros H.
  apply andb_true_iff in H. destruct H as [Hne Hall].
  unfold Posix.words.
  rewrite <- (append_nil_r s) at 1.
  rewrite (scan_plain s Hall); [reflexivity|].
  destruct s; [discriminate Hne | discriminate].
Qed.

(** Inside double quotes safe text is read as it stands. *)
Lemma scan_double_quoted (p : string) :
  dq_safe p = true ->
  forall w done rest,
    Posix.scan Posix.Double (Some w) done (p ++ String shell.DQ rest)
    = Posix.scan Posix.Bare (Some (w ++ p)) done rest.
Proof.
  induction p as [|c p IH]; intros Hsafe w done rest.
  - simpl. rewrite append_nil_r. reflexivity.
  - cbn [dq_safe] in Hsafe. apply andb_true_iff in Hsafe.
    destruct Hsafe as [Hc Hp].
    apply negb_true_iff in Hc.
    apply orb_false_iff in Hc. destruct Hc as [Hc Hbq].
    apply orb_false_iff in Hc. destruct Hc as [Hc Hdollar].
    apply orb_false_iff in Hc. destruct Hc as [Hdq Hbs].
    cbn [append Posix.scan]. rewrite Hdq, Hbs, Hdollar, Hbq.
    cbn [orb].
    change (Posix.push (Some w) c) with (Some (w ++ String c EmptyString)).
    rewrite (IH Hp), append_assoc. reflexivity.
Qed.

Lemma words_quoted (p : string) :
  dq_safe p = true -> Posix.words (quoted p) = Some [p].
Proof.
  intros Hsafe. unfold Posix.words, quoted.
  change (Posix.scan Posix.Double (Some EmptyString) []
            (p ++ String shell.DQ EmptyString) = Some [p]).
  rewrite (scan_double_quoted p Hsafe). reflexivity.
Qed.

Lemma words_quoted_list (files : list string) :
  forallb dq_safe files = true ->
  Posix.words (JsString.join " " (map quoted files)) = Some files.
Proof.
  induction files as [|f rest IH]; [reflexivity|].
  simpl forallb. intros H. apply andb_true_iff in H. destruct H as [Hf Hrest].
  destruct rest as [|g gs].
  - apply words_quoted, Hf.
  - change (map quoted (f :: g :: gs)) with (quoted f :: quoted g :: map quoted gs).
    rewrite join_cons.
    apply (words_app (quoted f) _ [f] (g :: gs) (words_quoted f Hf)).
    apply IH, Hrest.
Qed.

(** X14.  File paths are held together by their double quotes: a list of
    paths free of double quotes, backslashes, dollar signs and backquotes,
    blanks allowed, is rendered by [addCredentialSets] so that a POSIX
    shell reads back exactly the paths, one word each, and the arguments of
    [pushFile] are read back as [-f], the path, [--repo] and the
    repository. *)
Theorem quoted_paths_read_back
    (sh : shell.Shell) (host : Host) (files : list string)
    (filePath repo : string) :
  forallb dq_safe files = true ->
  dq_safe filePath = true ->
  plain_word repo = true ->
  (exists filesArg,
      addCredentialSets sh host files
      = invokeObj sh host "credential add" filesArg [] (fun _ => tt)
      /\ Posix.words filesArg = Some files)
  /\ (exists args,
        pushFile sh host filePath repo
        = invokeObj sh host "push" args [] (fun _ => tt)
        /\ Posix.words args = Some ["-f"; filePath; "--repo"; repo]).
Proof.
  intros Hfiles Hpath Hrepo. split.
  - exists (JsString.join " " (map quoted files)).
    split; [reflexivity | apply words_quoted_list, Hfiles].
  - exists ("-f " ++ quoted filePath ++ " --repo " ++ repo).
    split; [reflexivity|].
    change ("-f " ++ quoted filePath ++ " --repo " ++ repo)
      with ("-f" ++ " " ++ quoted filePath ++ " --repo " ++ repo).
    apply (words_app "-f" _ ["-f"] [filePath; "--repo"; repo]); [reflexivity|].
    change (quoted filePath ++ " --repo " ++ repo)
      with (quoted filePath ++ " " ++ "--repo" ++ " " ++ repo).
    apply (words_app (quoted filePath) _ [filePath] ["--repo"; repo]
             (words_quoted filePath Hpath)).
    apply (words_app "--repo" repo ["--repo"] [repo]); [reflexivity|].
    apply words_plain, Hrepo.
Qed.

Lemma quoted_paths_read_back_witness :
  (exists filesArg,
      addCredentialSets no_duffle_shell bare_host
        ["/home/me/my creds.yaml"; "C:/Program Files/c.yaml"]
      = invokeObj no_duffle_shell bare_host "credential add" filesArg []
                  (fun _ => tt)
      /\ Posix.words filesArg
         = Some ["/home/me/my creds.yaml"; "C:/Program Files/c.yaml"])
  /\ (exists args,
        pushFile no_duffle_shell bare_host "my bundle.json" "hub.cnlabs.io"
        = invokeObj no_duffle_shell bare_host "push" args [] (fun _ => tt)
        /\ Posix.words args
           = Some ["-f"; "my bundle.json"; "--repo"; "hub.cnlabs.io"]).
Proof.
  apply (quoted_paths_read_back no_duffle_shell bare_host
           ["/home/me/my creds.yaml"; "C:/Program Files/c.yaml"]
           "my bundle.json" "hub.cnlabs.io"); reflexivity.
Defined.

Lemma words_params (m : pairs.StringMap) :
  plain_keys m = true -> Posix.words (paramsArgs m) = Some (intended_words m).
Proof.
  intros Hm. unfold Posix.words.
  rewrite paramsArgs_join, (scan_rendered_entries m Hm []). reflexivity.
Qed.

Lemma words_credential (credentialSet : option string) :
  plain_credential credentialSet = true ->
  Posix.words (credentialArg credentialSet) = Some (credential_words credentialSet).
Proof.
  destruct credentialSet as [c|]; [|reflexivity].
  destruct c as [|a c']; [reflexivity|].
  cbn [plain_credential JsString.is_empty orb]. intros Hc.
  change (credentialArg (Some (String a c'))) with ("-c" ++ " " ++ String a c').
  apply (words_app "-c" _ ["-c"] [String a c']); [reflexivity|].
  apply words_plain. unfold plain_word. rewrite Hc. reflexivity.
Qed.

(** X15.  The install arguments are read back by a POSIX shell as the
    installation name, the bundle name (or [-f] and the bundle file), then
    [--set] and [key=value] for each non-empty parameter and [-c] and the
    credential set if there is one; where the parameters or the credential
    set render to nothing, the blanks left behind add no word.  This needs
    plain names, keys and credential set, and a file path that double
    quotes hold together. *)
Theorem install_args_read_back
    (bundleName bundleFilePath name : string) (params : pairs.StringMap)
    (credentialSet : option string) :
  plain_word name = true ->
  plain_word bundleName = true ->
  dq_safe bundleFilePath = true ->
  plain_keys params = true ->
  plain_credential credentialSet = true ->
  Posix.words (installBundle_args bundleName name params credentialSet)
  = Some (name :: bundleName
            :: intended_words params ++ credential_words credentialSet)%list
  /\ Posix.words (installFile_args bundleFilePath name params credentialSet)
     = Some (name :: "-f" :: bundleFilePath
               :: intended_words params ++ credential_words credentialSet)%list.
Proof.
  intros Hname Hbundle Hpath Hkeys Hcred.
  assert (Htail : Posix.words (paramsArgs params ++ " " ++ credentialArg credentialSet)
                  = Some (intended_words params ++ credential_words credentialSet)%list).
  { apply words_app; [apply words_params, Hkeys | apply words_credential, Hcred]. }
  split.
  - unfold installBundle_args.
    apply (words_app name _ [name] _ (words_plain name Hname)).
    apply (words_app bundleName _ [bundleName] _ (words_plain bundleName Hbundle)).
    exact Htail.
  - unfold installFile_args.
    change (name ++ " -f " ++ quoted bundleFilePath ++ " " ++ paramsArgs params
                 ++ " " ++ credentialArg credentialSet)
      with (name ++ " " ++ "-f" ++ " " ++ quoted bundleFilePath ++ " "
                 ++ paramsArgs params ++ " " ++ credentialArg credentialSet).
    apply (words_app name _ [name] _ (words_plain name Hname)).
    apply (words_app "-f" _ ["-f"] _ eq_refl).
    apply (words_app (quoted bundleFilePath) _ [bundleFilePath] _
             (words_quoted bundleFilePath Hpath)).
    exact Htail.
Qed.

Lemma install_args_read_back_witness :
  Posix.words (installBundle_args "wordpress" "myblog"
                 [("size", EmptyString)] None)
  = Some ["myblog"; "wordpress"]
  /\ Posix.words (installFile_args "my bundles/wp.json" "myblog"
                    [("pw", hostile_value); ("size", EmptyString)]
                    (Some "prod"))
     = Some ["myblog"; "-f"; "my bundles/wp.json"; "--set";
             ("pw=" ++ hostile_value)%string; "-c"; "prod"].
Proof.
  split.
  - apply (install_args_read_back "wordpress" "my bundles/wp.json" "myblog"
             [("size", EmptyString)] None); reflexivity.
  - apply (install_args_read_back "wordpress" "my bundles/wp.json" "myblog"
             [("pw", hostile_value); ("size", EmptyString)] (Some "prod"));
      reflexivity.
Defined.

(** X16.  The arguments of the two credentials-generate operations are
    read back by a POSIX shell as the name followed by the bundle name,
    or by [-f] and the bundle file, for plain names and a file path that
    double quotes hold together. *)
Theorem generate_args_read_back
    (sh : shell.Shell) (host : Host) (bundleName bundleFilePath name : string) :
  plain_word name = true ->
  plain_word bundleName = true ->
  dq_safe bundleFilePath = true ->
  (exists args,
      generateCredentialsForBundle sh host bundleName name
      = invokeObj sh host "credentials generate" args [] (fun _ => tt)
      /\ Posix.words args = Some [name; bundleName])
  /\ (exists args,
        generateCredentialsForFile sh host bundleFilePath name
        = invokeObj sh host "credentials generate" args [] (fun _ => tt)
        /\ Posix.words args = Some [name; "-f"; bundleFilePath]).
Proof.
  intros Hname Hbundle Hpath. split.
  - exists (name ++ " " ++ bundleName). split; [reflexivity|].
    apply (words_app name bundleName [name] [bundleName]);
      apply words_plain; assumption.
  - exists (name ++ " -f " ++ quoted bundleFilePath). split; [reflexivity|].
    change (name ++ " -f " ++ quoted bundleFilePath)
      with (name ++ " " ++ "-f" ++ " " ++ quoted bundleFilePath).
    apply (words_app name _ [name] _ (words_plain name Hname)).
    apply (words_app "-f" _ ["-f"] _ eq_refl).
    apply words_quoted, Hpath.
Qed.

Lemma generate_args_read_back_witness :
  (exists args,
      generateCredentialsForBundle no_duffle_shell bare_host "wordpress" "myblog"
      = invokeObj no_duffle_shell bare_host "credentials generate" args []
                  (fun _ => tt)
      /\ Posix.words args = Some ["myblog"; "wordpress"])
  /\ (exists args,
        generateCredentialsForFile no_duffle_shell bare_host
          "my bundles/wp.json" "myblog"
        = invokeObj no_duffle_shell bare_host "credentials generate" args []
                    (fun _ => tt)
        /\ Posix.words args = Some ["myblog"; "-f"; "my bundles/wp.json"]).
Proof.
  apply (generate_args_read_back no_duffle_shell bare_host
           "wordpress" "my bundles/wp.json" "myblog"); reflexivity.
Defined.

(** X18.  Names are passed on as they are, without quotes: a bundle name
    or credential-set name made of two plain words with a blank between
    them reaches a POSIX shell as two arguments, and one that holds a
    semicolon after a plain word is no longer read as arguments at all. *)
Theorem names_are_not_quoted
    (sh : shell.Shell) (host : Host) (n1 n2 tail : string) :
  plain_word n1 = true ->
  plain_word n2 = true ->
  (exists args,
      upgrade sh host (n1 ++ " " ++ n2)
      = invokeObj sh host "upgrade" args [] (fun _ => tt)
      /\ uninstall sh host (n1 ++ " " ++ n2)
         = invokeObj sh host "uninstall" args [] (fun _ => tt)
      /\ deleteCredentialSet sh host (n1 ++ " " ++ n2)
         = invokeObj sh host "credential remove" args [] (fun _ => tt)
      /\ Posix.words args = Some [n1; n2])
  /\ (exists args,
        upgrade sh host (n1 ++ ";" ++ tail)
        = invokeObj sh host "upgrade" args [] (fun _ => tt)
        /\ Posix.words args = None).
Proof.
  intros H1 H2. split.
  - exists (n1 ++ " " ++ n2). repeat split.
    apply (words_app n1 n2 [n1] [n2]); apply words_plain; assumption.
  - exists (n1 ++ ";" ++ tail). split; [reflexivity|].
    unfold plain_word in H1. apply andb_true_iff in H1. destruct H1 as [Hne Hall].
    unfold Posix.words.
    rewrite (scan_plain n1 Hall); [reflexivity|].
    destruct n1; [discriminate Hne | discriminate].
Qed.

Lemma names_are_not_quoted_witness :
  (exists args,
      upgrade no_duffle_shell bare_host "word press"
      = invokeObj no_duffle_shell bare_host "upgrade" args [] (fun _ => tt)
      /\ uninstall no_duffle_shell bare_host "word press"
         = invokeObj no_duffle_shell bare_host "uninstall" args [] (fun _ => tt)
      /\ deleteCredentialSet no_duffle_shell bare_host "word press"
         = invokeObj no_duffle_shell bare_host "credential remove" args []
                     (fun _ => tt)
      /\ Posix.words args = Some ["word"; "press"])
  /\ (exists args,
        upgrade no_duffle_shell bare_host "word; rm -rf /"
        = invokeObj no_duffle_shell bare_host "upgrade" args [] (fun _ => tt)
        /\ Posix.words args = None).
Proof.
  apply (names_are_not_quoted no_duffle_shell bare_host "word" "press"
           " rm -rf /"); reflexivity.
Defined.

(** ** The home directory *)

(** X17.  The duffle home is the value of [DUFFLE_HOME] when that is set
    to a non-empty string; an unset variable and one set to the empty
    string both give the [.duffle] directory joined to the shell's home. *)
Theorem home_falls_back_on_empty (sh : shell.Shell) (host : Host) :
  (if JsString.truthy_opt (env_DUFFLE_HOME host)
   then Some (home sh host) = env_DUFFLE_HOME host
   else home sh host = path_join host (shell.home sh) ".duffle")
  /\ home sh (mkHost (resourcesPath host) (Some EmptyString) (path_join host))
     = home sh (mkHost (resourcesPath host) None (path_join host)).
Proof.
  split; [|reflexivity].
  unfold home. destruct (env_DUFFLE_HOME host) as [h|]; [|reflexivity].
  simpl. destruct (JsString.truthy h); reflexivity.
Qed.
